(** * in-vue: the visibility-gated, retrying component loader

    A shallow embedding of [defineInVueComponent] as it is written in
    [src/lib/main.ts] (variant [MainTs]) and in [src/unnamed/part_000]
    (variant [Part000]), and the properties of the specification checked
    against it.

    The code is a handful of callbacks that a host drives: Vue's
    [defineAsyncComponent] (which calls the [loader] option, and [onError]
    when the promise it returned rejects), Vue's component lifecycle
    (the [onMounted] hook, template refs), the browser's
    [IntersectionObserver] and [setTimeout].  The callbacks are embedded as
    state transformers over a record [World]; the host is a list of
    [Event]s, each of which runs the callback the host would run. *)

From Stdlib Require Import ZArith QArith Qpower Qround Bool List String Ascii.
From Stdlib Require Import Lia Lqa.
From Stdlib Require Import Floats.
From Stdlib Require DecimalString DecimalN DecimalPos.
Import ListNotations.

(* ================================================================== *)
(** ** JavaScript numbers *)

(** A JavaScript [number] is an IEEE 754 binary64 value: a finite number,
    [Infinity], [-Infinity] or [NaN].  The finite ones are rationals, and
    an arithmetic operation on them returns the exact result rounded to the
    nearest binary64 number, ties to even: 53 significant bits from
    [2^-1022] on, multiples of [2^-1074] below (gradual underflow), and
    [Infinity] when the rounded result reaches [2^1024].  The rounding is
    written out below on [Q].  The two zeros are one: the code never
    divides, so the sign of a zero is never seen. *)
Module JsNumber.

Local Open Scope Q_scope.

Inductive number : Type :=
| Finite (q : Q)
| PosInfinity
| NegInfinity
| NaN.

(** The rational [2^e]. *)
Definition pow2 (e : Z) : Q := (2 # 1) ^ e.

(** The binade of a positive rational: the [e] with [2^e <= q < 2^(e+1)]. *)
Definition ilog2 (q : Q) : Z :=
  let e0 := (Z.log2 (Qnum q) - Z.log2 (Zpos (Qden q)))%Z in
  if Qle_bool (pow2 e0) q then e0 else (e0 - 1)%Z.

(** Round to the nearest integer, ties to the even one. *)
Definition rne (x : Q) : Z :=
  let f := Qfloor x in
  match Qcompare (x - inject_Z f) (1 # 2) with
  | Lt => f
  | Gt => (f + 1)%Z
  | Eq => if Z.even f then f else (f + 1)%Z
  end.

(** Number of significand bits of binary64, the binade of its smallest
    normal number, and the first power of two that is out of its range. *)
Definition prec : Z := 53.
Definition emin : Z := -1022.
Definition emax : Z := 1024.

(** The exponent of the unit in the last place of a positive rational:
    52 below its binade, and never below [-1074]. *)
Definition ulp_exp (q : Q) : Z := (Z.max (ilog2 q) emin - (prec - 1))%Z.

(** Rounding of a positive rational to a multiple of its unit in the last
    place: scale, round to an integer, scale back. *)
Definition round_pos (q : Q) : Q :=
  let e := ulp_exp q in
  inject_Z (rne (q * pow2 (- e))) * pow2 e.

Definition round64 (q : Q) : number :=
  match Qcompare q 0 with
  | Eq => Finite 0
  | Gt =>
      let r := round_pos q in
      if Qle_bool (pow2 emax) r then PosInfinity else Finite r
  | Lt =>
      let r := round_pos (- q) in
      if Qle_bool (pow2 emax) r then NegInfinity else Finite (- r)
  end.

(** The operator [*] of the source: [0 * Infinity] is [NaN]. *)
Definition fmul (x y : number) : number :=
  match x, y with
  | NaN, _ | _, NaN => NaN
  | Finite a, Finite b => round64 (a * b)
  | Finite a, PosInfinity | PosInfinity, Finite a =>
      match Qcompare a 0 with
      | Eq => NaN
      | Gt => PosInfinity
      | Lt => NegInfinity
      end
  | Finite a, NegInfinity | NegInfinity, Finite a =>
      match Qcompare a 0 with
      | Eq => NaN
      | Gt => NegInfinity
      | Lt => PosInfinity
      end
  | PosInfinity, PosInfinity | NegInfinity, NegInfinity => PosInfinity
  | PosInfinity, NegInfinity | NegInfinity, PosInfinity => NegInfinity
  end.

(** The operator [+] of the source: [Infinity + -Infinity] is [NaN]. *)
Definition fadd (x y : number) : number :=
  match x, y with
  | NaN, _ | _, NaN => NaN
  | Finite a, Finite b => round64 (a + b)
  | PosInfinity, NegInfinity | NegInfinity, PosInfinity => NaN
  | PosInfinity, _ | _, PosInfinity => PosInfinity
  | NegInfinity, _ | _, NegInfinity => NegInfinity
  end.

(** [Math.pow(2, e)] for an integer [e]: the power of two as binary64 has
    it, which is [Infinity] from [e = 1024] on and [0] below [e = -1074]. *)
Definition Math_pow2 (e : Z) : number := round64 (pow2 e).

(** The comparisons [<=], [<] and [===] of JavaScript: false on [NaN]. *)
Definition num_le (x y : number) : Prop :=
  match x, y with
  | NaN, _ | _, NaN => False
  | NegInfinity, _ | _, PosInfinity => True
  | Finite a, Finite b => a <= b
  | _, _ => False
  end.

Definition num_lt (x y : number) : Prop :=
  match x, y with
  | NaN, _ | _, NaN => False
  | Finite a, Finite b => a < b
  | NegInfinity, NegInfinity | PosInfinity, PosInfinity => False
  | NegInfinity, _ | _, PosInfinity => True
  | _, _ => False
  end.

Definition num_eq (x y : number) : Prop :=
  match x, y with
  | Finite a, Finite b => a == b
  | PosInfinity, PosInfinity | NegInfinity, NegInfinity => True
  | _, _ => False
  end.

(** The same value ([Object.is], but for the sign of zero). *)
Definition same (x y : number) : bool :=
  match x, y with
  | Finite a, Finite b => Qeq_bool a b
  | PosInfinity, PosInfinity | NegInfinity, NegInfinity | NaN, NaN => true
  | _, _ => false
  end.

End JsNumber.

(* ================================================================== *)
(** ** The retry policy: [onError] *)

Module Retry.
Import JsNumber.
Local Open Scope Q_scope.

(** What [onError] does with the two continuations it is given:
    [fail()], or [setTimeout(retry, jitteredDelay)]. *)
Inductive Decision : Type :=
| GiveUp
| RetryAfter (jitteredDelay : number).

(** [const baseDelay = retryDelay * Math.pow(2, attempts - 1)] *)
Definition baseDelay (retryDelay : Q) (attempts : Z) : number :=
  fmul (Finite retryDelay) (Math_pow2 (attempts - 1)).

(** [const jitteredDelay = baseDelay * (1 + Math.random() * 0.5)],
    [u] being the value [Math.random()] returned. *)
Definition jitteredDelay (retryDelay : Q) (attempts : Z) (u : Q) : number :=
  fmul (baseDelay retryDelay attempts)
       (fadd (Finite 1) (fmul (Finite u) (Finite (1 # 2)))).

(** [onError(error, retry, fail, attempts)], main.ts lines 90-108 and
    part_000 lines 50-63 and 117-130 (the three copies are the same).
    [maxRetries] is taken at its integral values, [retryDelay] at its
    finite ones. *)
Definition onError (maxRetries : Z) (retryDelay : Q) (attempts : Z) (u : Q)
  : Decision :=
  if (attempts >? maxRetries)%Z then GiveUp
  else RetryAfter (jitteredDelay retryDelay attempts u).

(** The same expression evaluated without rounding. *)
Definition exactDelay (retryDelay : Q) (attempts : Z) (u : Q) : Q :=
  retryDelay * pow2 (attempts - 1) * (1 + u * (1 # 2)).

(** The specification's bounds, as it words them: the delay scheduled after
    failure [k] lies in [[retryDelay * 2^(k-1), retryDelay * 2^(k-1) * 1.5)],
    the upper end excluded. *)
Definition half_open_delay_claim : Prop :=
  forall (maxRetries : Z) (retryDelay : Q) (k : Z) (u : Q),
    (1 <= k <= maxRetries)%Z -> 0 < retryDelay -> 0 <= u -> u < 1 ->
    exists d,
      onError maxRetries retryDelay k u = RetryAfter d
      /\ num_le (Finite (retryDelay * pow2 (k - 1))) d
      /\ num_lt d (Finite (retryDelay * pow2 (k - 1) * (3 # 2))).

(** The largest binary64 number below 1, [0x1.fffffffffffffp-1]. *)
Definition below_one : Q := 1 - pow2 (-53).

(** The smallest positive binary64 number, [2^-1074]. *)
Definition min_positive : Q := pow2 (-1074).

End Retry.

(* ================================================================== *)
(** ** The same arithmetic on the kernel's binary64 numbers *)

(** Rocq's primitive floats are binary64 numbers with the operations of
    the processor.  They serve as a check of [JsNumber]: on the samples
    below, the expression of [onError] computed with them has the value
    that [Retry.jitteredDelay] computes. *)
Module Binary64.
Import JsNumber Retry.
Local Open Scope Q_scope.

(** The number that a float is. *)
Definition value (f : float) : number :=
  match Prim2SF f with
  | S754_zero _ => Finite 0
  | S754_infinity s => if s then NegInfinity else PosInfinity
  | S754_nan => NaN
  | S754_finite s m e =>
      Finite ((if s then -1 else 1) * inject_Z (Zpos m) * pow2 e)
  end.

Definition rational (f : float) : Q :=
  match value f with
  | Finite q => q
  | _ => 0
  end.

(** [retryDelay * Math.pow(2, attempts - 1) * (1 + u * 0.5)] *)
Definition jitteredDelay64 (retryDelay : float) (attempts : Z) (u : float) : float :=
  (retryDelay * Z.ldexp 1 (attempts - 1) * (1 + u * 0.5))%float.

Definition agree (s : float * Z * float) : bool :=
  let '(r, k, u) := s in
  same (value (jitteredDelay64 r k u)) (jitteredDelay (rational r) k (rational u)).

(** Exact and inexact products and sums, the largest draws, delays that
    overflow, [0 * Infinity], subnormal and negative delays. *)
Definition samples : list (float * Z * float) :=
  [ (1000%float, 1%Z, 0.25%float); (1000%float, 2%Z, 0.75%float);
    (1000%float, 3%Z, 0x1.fffffffffffffp-1%float);
    (1000%float, 1%Z, 0x1.fffffffffffffp-1%float);
    (1000%float, 1%Z, 0x1.ffffffffffffdp-1%float);
    (0x1.999999999999ap-4%float, 5%Z, 0x1.23456789abcdep-1%float);
    (250%float, 4%Z, 0x1.5555555555555p-2%float);
    (1000%float, 20%Z, 0x1.0000000000001p-30%float);
    (0x1.fffffffffffffp+9%float, 7%Z, 0x1.921fb54442d18p-1%float);
    (3%float, 1%Z, 0%float);
    (1000%float, 1014%Z, 0.5%float); (1000%float, 1015%Z, 0.5%float);
    (1000%float, 1015%Z, 0%float);
    (0.5%float, 1024%Z, 0.5%float); (0.5%float, 1025%Z, 0.5%float);
    (0.5%float, 1026%Z, 0.5%float);
    (0x1.fffffffffffffp+1023%float, 1%Z, 0%float);
    (0x1.fffffffffffffp+1023%float, 1%Z, 0x1p-53%float);
    (0x1.fffffffffffffp+1023%float, 1%Z, 0x1p-52%float);
    (0x1.5555555555555p+1023%float, 1%Z, 0x1.fffffffffffffp-1%float);
    (0%float, 1024%Z, 0.5%float); (0%float, 1025%Z, 0.5%float);
    (0%float, 3000%Z, 0%float);
    (0x1p-1074%float, 1%Z, 0x1.fae147ae147aep-1%float);
    (0x1p-1074%float, 2%Z, 0x1.fae147ae147aep-1%float);
    (0x1p-1074%float, 2%Z, 0.5%float);
    (0x1p-1074%float, 1%Z, 0x1p-1074%float);
    (0x1.8p-1073%float, 1%Z, 0x1.5555555555555p-1%float);
    (0x1.fffffffffffffp-1023%float, 1%Z, 0x1.fffffffffffffp-1%float);
    (0x1.fffffffffffffp-1023%float, 2%Z, 0x1.23456789abcdep-1%float);
    (0x1p-1074%float, 2100%Z, 0.25%float);
    ((-1000)%float, 1%Z, 0.25%float); ((-1000)%float, 1015%Z, 0.5%float);
    ((-0x1p-1074)%float, 1%Z, 0.75%float) ].

(** [Math.pow(2, e)] against the kernel's [ldexp], around both ends of the
    range. *)
Definition powers : list Z :=
  [-1200; -1076; -1075; -1074; -1073; -1023; -1022; -1; 0; 1; 52; 53;
   1022; 1023; 1024; 1025; 3000]%Z.

Definition agree_pow2 (e : Z) : bool :=
  same (value (Z.ldexp 1 e)) (Math_pow2 e).

End Binary64.

(* ================================================================== *)
(** ** Version check *)

Module Version.
Local Open Scope string_scope.

(** The result of [Number(s)]: a number or [NaN]. *)
Inductive jsnum : Type :=
| JsNaN
| JsNum (n : N).

Definition digit_of (c : ascii) : option N :=
  let n := N_of_ascii c in
  if ((48 <=? n) && (n <=? 57))%N then Some (n - 48)%N else None.

Fixpoint digits (acc : N) (s : string) : jsnum :=
  match s with
  | EmptyString => JsNum acc
  | String c rest =>
      match digit_of c with
      | Some d => digits (10 * acc + d)%N rest
      | None => JsNaN
      end
  end.

(** [Number(s)] on the pieces a version string is made of: a string of
    decimal digits is its value and the empty string is 0.  Every other
    piece is taken as [NaN] (the signs, blanks, fractions, exponents and
    radix prefixes that [Number] also reads do not occur in the major and
    minor fields of a Vue version). *)
Definition Number (s : string) : jsnum := digits 0 s.

(** [s.split('.')]; [cur] is the piece being read. *)
Fixpoint split_dot (cur : string) (s : string) : list string :=
  match s with
  | EmptyString => [cur]
  | String c rest =>
      if Ascii.eqb c "."%char then cur :: split_dot EmptyString rest
      else split_dot (cur ++ String c EmptyString) rest
  end.

Definition split (s : string) : list string := split_dot EmptyString s.

(** [major === 3]: false on [undefined] and on [NaN]. *)
Definition strict_eq3 (x : option jsnum) : bool :=
  match x with
  | Some (JsNum n) => (n =? 3)%N
  | _ => false
  end.

(** [minor >= 2]: [undefined] converts to [NaN], and [NaN >= 2] is false. *)
Definition ge2 (x : option jsnum) : bool :=
  match x with
  | Some (JsNum n) => (2 <=? n)%N
  | _ => false
  end.

(** part_000 lines 19-22:
    [const [major, minor] = version.split('.').map(Number)]
    [return major === 3 && minor >= 2] *)
Definition isCompatibleVueVersion (version : string) : bool :=
  let parts := map Number (split version) in
  let major := nth_error parts 0 in
  let minor := nth_error parts 1 in
  strict_eq3 major && ge2 minor.

End Version.


(* ================================================================== *)
(** ** The component and its host *)

Module InVue.
Import Retry.
Local Open Scope nat_scope.

(** The two copies of [defineInVueComponent] under [src/]. *)
Inductive Variant : Type :=
| MainTs     (* src/lib/main.ts *)
| Part000.   (* src/unnamed/part_000 *)

(** What the code asks of its environment:
    ['IntersectionObserver' in window] and Vue's [version]. *)
Record Host : Type := mkHost {
  hasIntersectionObserver : bool;
  version : string
}.

(** The options the code destructures; [None] is a property left
    [undefined], which takes the default. *)
Record Options : Type := mkOptions {
  opt_maxRetries : option Z;
  opt_retryDelay : option Q;
  opt_timeout : option Q
}.

(** [const { maxRetries = 3, timeout = 30000, retryDelay = 1000, ... } = options] *)
Definition maxRetries (o : Options) : Z :=
  match opt_maxRetries o with Some n => n | None => 3%Z end.
Definition retryDelay (o : Options) : Q :=
  match opt_retryDelay o with Some d => d | None => 1000%Q end.
Definition timeout (o : Options) : Q :=
  match opt_timeout o with Some t => t | None => 30000%Q end.

(** Loaded components and errors are opaque to the code. *)
Definition Component : Type := nat.
Definition Error : Type := nat.

(** How one call of the user-supplied [loader] ends. *)
Inductive Settlement : Type :=
| Fulfils (c : Component)
| Rejects (e : Error).

(** The promise that [defineAsyncComponent] waits for: the one its [loader]
    option returned at the latest call. *)
Inductive Promise : Type :=
| NotCreated
| Pending
| Fulfilled (c : Component)
| Rejected (e : Error).

(** The loading component.  [elRef.value] follows it: [undefined] before
    the component is mounted, its root element while it is mounted, and
    [null] once Vue has unmounted it. *)
Inductive Phase : Type :=
| NotMounted
| Mounted
| Unmounted.

(** What the code does to the outside, in the order it does it. *)
Inductive Effect : Type :=
| CallLoader                (* loader() *)
| NewObserver               (* new IntersectionObserver(callback, observerOptions) *)
| Observe                   (* observer.observe(elRef.value) *)
| Unobserve                 (* observer.unobserve(elRef.value) *)
| Resolve (c : Component)   (* resolveComponent(component) *)
| Warn (attempts : Z)       (* console.warn(`Async component load attempt ...`) *)
| LogError                  (* console.error(...) *)
| CallFail                  (* fail() *)
| SetTimeout (delay : JsNumber.number)   (* setTimeout(retry, jitteredDelay) *)
| Uncaught.                 (* an exception that leaves an async callback *)

Record World : Type := mkWorld {
  request : Promise;          (* the promise handed to defineAsyncComponent *)
  retries : nat;              (* defineAsyncComponent's own retry counter *)
  timers : list JsNumber.number;   (* delays of the pending setTimeout(retry, _) *)
  resolveComponent : bool;    (* [let resolveComponent] has been assigned *)
  phase : Phase;              (* of the loading component *)
  observing : bool;           (* the observer holds the root element *)
  observers : nat;            (* IntersectionObservers constructed *)
  invocations : nat;          (* calls of the user-supplied loader *)
  draws : nat;                (* calls of Math.random *)
  log : list Effect           (* latest first *)
}.

Definition init : World :=
  mkWorld NotCreated 0 [] false NotMounted false 0 0 0 [].

Definition emit (e : Effect) (w : World) : World :=
  mkWorld (request w) (retries w) (timers w) (resolveComponent w) (phase w)
          (observing w) (observers w) (invocations w) (draws w) (e :: log w).
Definition set_request (p : Promise) (w : World) : World :=
  mkWorld p (retries w) (timers w) (resolveComponent w) (phase w)
          (observing w) (observers w) (invocations w) (draws w) (log w).
Definition set_retries (n : nat) (w : World) : World :=
  mkWorld (request w) n (timers w) (resolveComponent w) (phase w)
          (observing w) (observers w) (invocations w) (draws w) (log w).
Definition set_timers (l : list JsNumber.number) (w : World) : World :=
  mkWorld (request w) (retries w) l (resolveComponent w) (phase w)
          (observing w) (observers w) (invocations w) (draws w) (log w).
Definition set_resolveComponent (b : bool) (w : World) : World :=
  mkWorld (request w) (retries w) (timers w) b (phase w)
          (observing w) (observers w) (invocations w) (draws w) (log w).
Definition set_phase (p : Phase) (w : World) : World :=
  mkWorld (request w) (retries w) (timers w) (resolveComponent w) p
          (observing w) (observers w) (invocations w) (draws w) (log w).
Definition set_observing (b : bool) (w : World) : World :=
  mkWorld (request w) (retries w) (timers w) (resolveComponent w) (phase w)
          b (observers w) (invocations w) (draws w) (log w).
Definition set_observers (n : nat) (w : World) : World :=
  mkWorld (request w) (retries w) (timers w) (resolveComponent w) (phase w)
          (observing w) n (invocations w) (draws w) (log w).
Definition set_invocations (n : nat) (w : World) : World :=
  mkWorld (request w) (retries w) (timers w) (resolveComponent w) (phase w)
          (observing w) (observers w) n (draws w) (log w).
Definition set_draws (n : nat) (w : World) : World :=
  mkWorld (request w) (retries w) (timers w) (resolveComponent w) (phase w)
          (observing w) (observers w) (invocations w) n (log w).

(** Which function [defineAsyncComponent] is given as its [loader]:
    main.ts always passes the promise wrapper (lines 34-41); part_000 passes
    the user's [loader] itself when there is no IntersectionObserver
    (line 48) and a promise wrapper otherwise (lines 70-115). *)
Inductive Wiring : Type :=
| Gated
| Direct.

Definition wiring (v : Variant) (h : Host) : Wiring :=
  match v with
  | MainTs => Gated
  | Part000 => if hasIntersectionObserver h then Gated else Direct
  end.

(** What the host does next: the events that run a callback of this code.
    The timers of Vue's own [timeout] and [delay] options are left out. *)
Inductive Event : Type :=
| Setup                                 (* Vue instantiates the async component: load() *)
| Mount                                 (* Vue mounts the loading component *)
| Unmount                               (* Vue unmounts the loading component *)
| Intersection (entries : list bool)    (* the observer reports; isIntersecting of each entry *)
| TimerFires.                           (* the oldest pending timer runs its callback *)

Section Run.

Variable v : Variant.
Variable h : Host.
Variable o : Options.
(** The user-supplied [loader] (the producer of the specification): how
    its [k]-th call (from 0) ends. *)
Variable loader : nat -> Settlement.
(** [Math.random]: the value of its [i]-th call (from 0). *)
Variable random : nat -> Q.

(** An exception inside [loadComponent]: main.ts has no handler, so the
    promise of the async callback rejects with nobody listening; part_000
    wraps the body in [try]/[catch] and logs (lines 80-85). *)
Definition thrown (w : World) : World :=
  match v with
  | MainTs => emit Uncaught w
  | Part000 => emit LogError w
  end.

(** [resolveComponent(component)].  Calling the slot before it was assigned
    is a TypeError.  A promise settles once: resolving a promise that is no
    longer pending changes nothing. *)
Definition resolve (c : Component) (w : World) : World :=
  if resolveComponent w then
    match request w with
    | Pending => set_request (Fulfilled c) (emit (Resolve c) w)
    | _ => emit (Resolve c) w
    end
  else thrown w.

(** main.ts lines 49-55, part_000 lines 79-86:
    [const component = await loader(); resolveComponent(component)].
    The wait for the loader's promise is collapsed: the continuation runs
    with the outcome of this call. *)
Definition loadComponent (w : World) : World :=
  let k := invocations w in
  let w1 := set_invocations (S k) (emit CallLoader w) in
  match loader k with
  | Fulfils c => resolve c w1
  | Rejects _ => thrown w1
  end.

(** The callback given to [new IntersectionObserver], main.ts lines 65-74
    and part_000 lines 89-96.  [entries[0]] of an empty array is
    [undefined], whose property read throws; [unobserve] of the [null] that
    [elRef.value] holds after the unmount throws as well. *)
Definition observerCallback (entries : list bool) (w : World) : World :=
  match entries with
  | [] => emit Uncaught w
  | isIntersecting :: _ =>
      if negb isIntersecting then w
      else
        match phase w with
        | Mounted => loadComponent (set_observing false (emit Unobserve w))
        | _ => emit Uncaught w
        end
  end.

(** [new IntersectionObserver(...)] followed by
    [observer.observe(elRef.value)]; the hook runs while the component is
    mounted, so [elRef.value] is the root element. *)
Definition startObserving (w : World) : World :=
  set_observing true
    (emit Observe (set_observers (S (observers w)) (emit NewObserver w))).

(** The [onMounted] hook: main.ts lines 57-80, part_000 lines 88-100. *)
Definition onMounted (w : World) : World :=
  match v with
  | MainTs =>
      if negb (hasIntersectionObserver h) then loadComponent w
      else startObserving w
  | Part000 => startObserving w
  end.

(** Is there a loading component of this code for Vue to mount?  main.ts
    passes it as the [loadingComponent] option.  part_000 defines its
    wrapper inside the promise executor of the gated loader, so it exists
    only on that path and once the loader has been called; the executor
    returns [h(loadingComponentWrapper)], a value that [new Promise]
    discards, so nothing in the source hands the wrapper to a renderer.
    The model lets the host mount it nevertheless, so that what is said of
    the gate covers this copy of the callbacks too. *)
Definition mountable (w : World) : bool :=
  match v with
  | MainTs => true
  | Part000 =>
      match wiring v h, request w with
      | Gated, NotCreated => false
      | Gated, _ => true
      | Direct, _ => false
      end
  end.

(** [onError(error, retry, fail, attempts)] acting on the world:
    [fail()] rejects the promise of [load()] with [error];
    otherwise one [Math.random()] is drawn and a timer is set. *)
Definition runOnError (e : Error) (attempts : Z) (w : World) : World :=
  let w1 := emit (Warn attempts) w in
  match onError (maxRetries o) (retryDelay o) attempts (random (draws w1)) with
  | GiveUp => set_request (Rejected e) (emit CallFail (emit LogError w1))
  | RetryAfter d =>
      set_timers (timers w1 ++ [d]) (emit (SetTimeout d) (set_draws (S (draws w1)) w1))
  end.

(** [load()] of [defineAsyncComponent]: it calls the [loader] option, and
    when the promise it got rejects, it calls the [onError] option with
    [retries + 1] as [attempts]. *)
Definition load (w : World) : World :=
  match wiring v h with
  | Gated =>
      (* new Promise((resolve) => { resolveComponent = resolve }) *)
      set_resolveComponent true (set_request Pending w)
  | Direct =>
      let k := invocations w in
      let w1 := set_invocations (S k) (emit CallLoader (set_request Pending w)) in
      match loader k with
      | Fulfils c => set_request (Fulfilled c) w1
      | Rejects e => runOnError e (Z.of_nat (retries w1) + 1) w1
      end
  end.

(** [retry()] of [defineAsyncComponent]: [retries++; return load()]. *)
Definition retry (w : World) : World :=
  load (set_retries (S (retries w)) w).

(** One event.  The world holds one loading component and its observer:
    [Mount] is the mount of the first placeholder that Vue renders and
    [Unmount] its unmount, and what a placeholder rendered later would do,
    with an observer of its own, is not followed.  [Setup] is any
    instantiation of the async component: [load()] hands out the request it
    has while that one is pending or resolved, and it calls the [loader]
    option when there is none yet, or when the last one ended in failure
    (Vue forgets a failed request, [pendingRequest = null], and keeps its
    [retries] counter). *)
Definition step (ev : Event) (w : World) : World :=
  match ev with
  | Setup =>
      match request w with
      | NotCreated | Rejected _ => load w
      | Pending | Fulfilled _ => w
      end
  | Mount =>
      match phase w with
      | NotMounted => if mountable w then onMounted (set_phase Mounted w) else w
      | _ => w
      end
  | Unmount =>
      (* neither copy registers an unmount hook *)
      match phase w with
      | Mounted => set_phase Unmounted w
      | _ => w
      end
  | Intersection entries =>
      (* an observer reports only on elements it observes *)
      if observing w then observerCallback entries w else w
  | TimerFires =>
      match timers w with
      | [] => w
      | _ :: rest => retry (set_timers rest w)
      end
  end.

Definition run (evs : list Event) (w : World) : World :=
  fold_left (fun w ev => step ev w) evs w.

End Run.

(** [defineInVueComponent(loader, options)]: the error it throws, or the
    component it returns, not yet instantiated.  Only part_000 checks
    anything (lines 28-31), and only the version of Vue. *)
Definition defineInVueComponent (v : Variant) (h : Host) (o : Options)
  : string + World :=
  match v with
  | MainTs => inr init
  | Part000 =>
      if negb (Version.isCompatibleVueVersion (version h))
      then inl "Incompatible Vue Version: Minimum compatible vue version is 3.2.0"%string
      else inr init
  end.

(** *** Vocabulary of the statements *)

(** An intersection event whose first entry is not intersecting. *)
Definition nonIntersecting (ev : Event) : bool :=
  match ev with
  | Intersection (false :: _) => true
  | _ => false
  end.

(** Any event but an instantiation of the async component, and how many
    times Vue instantiated it. *)
Definition notSetup (ev : Event) : bool :=
  match ev with
  | Setup => false
  | _ => true
  end.


(** The effects that only [onError] has. *)
Definition isRetryEffect (e : Effect) : bool :=
  match e with
  | Warn _ | CallFail | SetTimeout _ => true
  | _ => false
  end.

Definition noRetryEffect (l : list Effect) : bool :=
  forallb (fun e => negb (isRetryEffect e)) l.

(** In a log (latest first), every call of the loader comes right after an
    [unobserve]. *)
Fixpoint releasedBeforeEachCall (l : list Effect) : bool :=
  match l with
  | [] => true
  | CallLoader :: rest =>
      match rest with
      | Unobserve :: _ => releasedBeforeEachCall rest
      | _ => false
      end
  | _ :: rest => releasedBeforeEachCall rest
  end.

(** The [attempts] that [onError] was called with, latest first. *)
Fixpoint attemptsSeen (l : list Effect) : list Z :=
  match l with
  | [] => []
  | Warn a :: rest => a :: attemptsSeen rest
  | _ :: rest => attemptsSeen rest
  end.

(** How many timers were set. *)
Fixpoint timersSet (l : list Effect) : nat :=
  match l with
  | [] => 0
  | SetTimeout _ :: rest => S (timersSet rest)
  | _ :: rest => timersSet rest
  end.

(** [n; n-1; ...; 1] *)
Fixpoint countdown (n : nat) : list Z :=
  match n with
  | O => []
  | S m => Z.of_nat n :: countdown m
  end.

(** How Vue brings the component to life where there is nothing to wait
    for: main.ts loads from the [onMounted] hook of the loading component,
    part_000 hands the loader to Vue, which calls it from [load()]. *)
Definition activation (v : Variant) : list Event :=
  match v with
  | MainTs => [Setup; Mount]
  | Part000 => [Setup]
  end.

(** Closes the cases of a step once the world is known well enough for
    the update to compute. *)
Ltac world_facts :=
  simpl in *; repeat split; intros; try discriminate; try contradiction;
  auto; try lia; intuition (auto; try discriminate; try lia).

(** Reads a field of an updated world, and touches nothing else. *)
Ltac world_fields :=
  cbn [request retries timers resolveComponent phase observing observers
       invocations draws log emit set_request set_retries set_timers
       set_resolveComponent set_phase set_observing set_observers
       set_invocations set_draws app].

(** What holds of every world that the gated wiring reaches. *)
Definition gated_inv (loader : nat -> Settlement) (w : World) : Prop :=
  timers w = []
  /\ retries w = 0
  /\ draws w = 0
  /\ noRetryEffect (log w) = true
  /\ invocations w <= 1
  /\ (observing w = true -> invocations w = 0)
  /\ (phase w = NotMounted -> invocations w = 0 /\ observing w = false)
  /\ match request w with
     | Rejected _ => False
     | Fulfilled c => loader 0 = Fulfils c /\ invocations w = 1
     | _ => True
     end.

(** The retry loop of the direct wiring with [n] retries allowed: idle,
    waiting for a timer, loaded, failed.  Vue's retry counter never passes
    [n], and every [attempts] that [onError] was given is at most one more
    than the counter. *)
Definition direct_inv (n : Z) (w : World) : Prop :=
  phase w = NotMounted /\ observing w = false
  /\ (Z.of_nat (retries w) <= Z.max 0 n)%Z
  /\ (forall a, In a (attemptsSeen (log w)) ->
        (1 <= a <= Z.of_nat (retries w) + 1)%Z)
  /\ match request w with
     | NotCreated => retries w = 0 /\ timers w = [] /\ invocations w = 0
     | Pending =>
         (exists d, timers w = [d]) /\ (Z.of_nat (retries w) + 1 <= n)%Z
         /\ retries w < invocations w
     | Fulfilled _ => timers w = [] /\ retries w < invocations w
     | Rejected _ =>
         timers w = [] /\ (n < Z.of_nat (retries w) + 1)%Z
         /\ retries w < invocations w
     end.

(** *** Sentences of the specification, as they are worded *)

(** "If the owning region is destroyed before firing, the gate must release
    its detection capability without invoking the callback", and no attempt
    is started afterwards. *)
Definition teardown_releases (v : Variant) (h : Host) (o : Options)
  (loader : nat -> Settlement) (random : nat -> Q) : Prop :=
  forall pre, forallb nonIntersecting pre = true ->
    let w := run v h o loader random ([Setup; Mount] ++ pre ++ [Unmount]) init in
    observing w = false
    /\ forall post, invocations (run v h o loader random post w) = 0.

(** "Visibility capability absent in the host environment: producer
    invoked immediately at construction", construction taken at its
    widest: the call of [defineInVueComponent] and the instantiation of the
    component it returned. *)
Definition invoked_at_construction (v : Variant) : Prop :=
  forall h o loader random w,
    hasIntersectionObserver h = false ->
    defineInVueComponent v h o = inr w ->
    invocations (run v h o loader random [Setup] w) = 1.

(** Options the specification calls invalid: a negative retry count, a
    delay that is not positive. *)
Definition invalidOptions (o : Options) : Prop :=
  (maxRetries o < 0)%Z \/ (retryDelay o <= 0)%Q.

(** "Invalid options or an incompatible host environment: fails fast at
    construction". *)
Definition rejects_bad_configuration (v : Variant) : Prop :=
  forall h o,
    invalidOptions o \/ Version.isCompatibleVueVersion (version h) = false ->
    exists msg, defineInVueComponent v h o = inl msg.

(** *** Sample inputs *)

(** A browser with IntersectionObserver, one without, both under a current
    Vue; the options left at their defaults; loaders that always fail,
    always succeed, and fail once before they succeed. *)
Definition modernHost : Host := mkHost true "3.4.21".
Definition legacyHost : Host := mkHost false "3.4.21".
Definition defaults : Options := mkOptions None None None.
Definition noRetries : Options := mkOptions (Some 0%Z) None None.
Definition alwaysFails (e : Error) : nat -> Settlement := fun _ => Rejects e.
Definition alwaysLoads (c : Component) : nat -> Settlement := fun _ => Fulfils c.
Definition failsOnce (e : Error) (c : Component) : nat -> Settlement :=
  fun k => match k with O => Rejects e | S _ => Fulfils c end.
Definition noJitter : nat -> Q := fun _ => 0%Q.

(** After a teardown that came before the gate fired. *)
Definition torn_down (w : World) : Prop :=
  phase w = Unmounted /\ observing w = true /\ invocations w = 0
  /\ timers w = [] /\ ~ In Unobserve (log w).

End InVue.


(* ================================================================== *)
(** ** The options handed to [defineAsyncComponent] *)

(** [defineInVueComponent] takes five properties out of [options] and
    spreads the rest into the object it gives to [defineAsyncComponent],
    followed by properties of its own.  Objects are lists of bindings, read
    from the front: a property written later in an object literal goes in
    front of the ones it overrides. *)
Module Forwarding.
Import InVue.
Local Open Scope string_scope.

Inductive Value : Type :=
| Undefined
| Num (q : Q)
| Given (id : nat)                        (* any other value of the caller *)
| UserLoader                              (* the [loader] argument *)
| PromiseWrapper                          (* () => new Promise((resolve) => ...) *)
| LoadingWrapper (loadingComponent : Value)   (* defineComponent({ setup() { ... } }) *)
| RetryHandler (maxRetries retryDelay : Value).   (* onError(error, retry, fail, attempts) *)

Definition Object : Type := list (string * Value).

(** [o[k]]: [undefined] when [o] has no such property. *)
Fixpoint get (k : string) (o : Object) : Value :=
  match o with
  | [] => Undefined
  | (k', x) :: rest => if String.eqb k k' then x else get k rest
  end.

(** A property that follows the others in an object literal. *)
Definition set (k : string) (x : Value) (o : Object) : Object := (k, x) :: o.

(** [const { k = d } = options]: the default is taken when the property is
    [undefined]. *)
Definition withDefault (d : Value) (x : Value) : Value :=
  match x with
  | Undefined => d
  | _ => x
  end.

(** The names both copies destructure. *)
Definition destructured : list string :=
  ["maxRetries"; "timeout"; "retryDelay"; "loadingComponent"; "observerOptions"].

Definition mem (k : string) (l : list string) : bool :=
  existsb (String.eqb k) l.

(** [...restOptions] *)
Definition restOptions (options : Object) : Object :=
  filter (fun kv => negb (mem (fst kv) destructured)) options.

(** The argument of [defineAsyncComponent]: main.ts lines 26-109,
    part_000 lines 45-64 and 68-131. *)
Definition asyncComponentOptions (v : Variant) (h : Host) (options : Object)
  : Object :=
  let maxRetries := withDefault (Num 3) (get "maxRetries" options) in
  let timeout := withDefault (Num 30000) (get "timeout" options) in
  let retryDelay := withDefault (Num 1000) (get "retryDelay" options) in
  let loadingComponent := get "loadingComponent" options in
  let rest := restOptions options in
  match v with
  | MainTs =>
      set "onError" (RetryHandler maxRetries retryDelay)
        (set "loadingComponent" (LoadingWrapper loadingComponent)
           (set "loader" PromiseWrapper
              (set "timeout" timeout rest)))
  | Part000 =>
      if negb (hasIntersectionObserver h) then
        set "onError" (RetryHandler maxRetries retryDelay)
          (set "timeout" timeout
             (set "loader" UserLoader rest))
      else
        set "onError" (RetryHandler maxRetries retryDelay)
          (set "timeout" timeout
             (set "loader" PromiseWrapper rest))
  end.

(** The names the code writes itself. *)
Definition written : list string :=
  ["timeout"; "loader"; "loadingComponent"; "onError"].

End Forwarding.

(* ================================================================== *)
(** ** Further vocabulary *)

Module Coverage.
Import Retry Version InVue.
Local Open Scope nat_scope.

(** [String(n)] for a natural number: its decimal digits. *)
Definition decimal (n : N) : string :=
  DecimalString.NilEmpty.string_of_uint (N.to_uint n).

(** How many times the element was released, how many times
    [resolveComponent] was called. *)
Fixpoint unobserves (l : list Effect) : nat :=
  match l with
  | [] => 0
  | Unobserve :: rest => S (unobserves rest)
  | _ :: rest => unobserves rest
  end.

Fixpoint resolves (l : list Effect) : nat :=
  match l with
  | [] => 0
  | Resolve _ :: rest => S (resolves rest)
  | _ :: rest => resolves rest
  end.

(** Any event but the mount of the loading component. *)
Definition notMount (ev : Event) : bool :=
  match ev with
  | Mount => false
  | _ => true
  end.

(** How many times Vue mounted the loading component. *)
Definition mounts (evs : list Event) : nat :=
  List.length (filter (fun ev => negb (notMount ev)) evs).


(** What holds of the observer in every world. *)
Definition observer_inv (w : World) : Prop :=
  observers w <= 1
  /\ unobserves (log w) <= observers w
  /\ (phase w = NotMounted -> observers w = 0 /\ observing w = false)
  /\ (observing w = true -> unobserves (log w) = 0 /\ observers w = 1)
  /\ (observing w = false -> unobserves (log w) = observers w
                             \/ phase w = NotMounted).



End Coverage.


(* ================================================================== *)
(** * Properties *)

Import JsNumber Retry Version InVue Coverage.
Open Scope nat_scope.

(** ** Runs *)

(** A run of two lists of events is the run of the second after the run
    of the first. *)
Lemma run_app (v : Variant) (h : Host) (o : Options)
  (loader : nat -> Settlement) (random : nat -> Q)
  (evs1 evs2 : list Event) (w : World) :
  run v h o loader random (evs1 ++ evs2) w
  = run v h o loader random evs2 (run v h o loader random evs1 w).
Proof. unfold run. apply fold_left_app. Qed.

(** An invariant of [step] that holds at the start holds after every run. *)
Lemma run_invariant (v : Variant) (h : Host) (o : Options)
  (loader : nat -> Settlement) (random : nat -> Q) (P : World -> Prop) :
  (forall ev w, P w -> P (step v h o loader random ev w)) ->
  forall evs w, P w -> P (run v h o loader random evs w).
Proof.
  intros Hstep evs. induction evs as [|ev evs IH]; intros w Hw; simpl.
  - exact Hw.
  - apply IH, Hstep, Hw.
Qed.

(** ** The gated wiring *)

Section GatedWiring.

Variable v : Variant.
Variable h : Host.
Variable o : Options.
Variable loader : nat -> Settlement.
Variable random : nat -> Q.
Hypothesis Hgated : wiring v h = Gated.

(** [gated_inv] holds at the start and is kept by every step. *)
Lemma gated_inv_init : gated_inv loader init.
Proof. unfold gated_inv; simpl. repeat split; auto. Qed.

Lemma gated_inv_step (ev : Event) (w : World) :
  gated_inv loader w -> gated_inv loader (step v h o loader random ev w).
Proof.
  destruct w as [rq rt tm rc ph ob obs inv dr lg].
  unfold gated_inv; simpl.
  intros (Htm & Hrt & Hdr & Hlg & Hinv & Hob & Hph & Hrq). subst tm rt dr.
  destruct ev as [| | |entries|]; simpl.
  - (* Setup: the wrapper creates a pending promise *)
    unfold load. rewrite Hgated. destruct rq; world_facts.
  - (* Mount *)
    destruct ph; [|world_facts..].
    destruct (Hph eq_refl) as [-> ->].
    destruct (mountable v h _); [|world_facts].
    unfold onMounted, startObserving, loadComponent, resolve, thrown; simpl.
    destruct (loader 0) eqn:Hp, v, (hasIntersectionObserver h), rc, rq;
      world_facts.
  - (* Unmount *)
    destruct ph, rq; world_facts.
  - (* Intersection *)
    destruct ob; [|world_facts].
    specialize (Hob eq_refl). subst inv.
    destruct entries as [|[|] es]; [world_facts| |world_facts].
    unfold observerCallback, loadComponent, resolve, thrown; simpl.
    destruct (loader 0) eqn:Hp, ph, v, rc, rq; world_facts.
  - (* TimerFires: no timer is ever pending *)
    world_facts.
Qed.

End GatedWiring.

(** ** Facts of every wiring *)

Section AnyWiring.

Variable v : Variant.
Variable h : Host.
Variable o : Options.
Variable loader : nat -> Settlement.
Variable random : nat -> Q.

(** An intersection event whose first entry is not intersecting changes
    nothing. *)
Lemma nonIntersecting_step (ev : Event) (w : World) :
  nonIntersecting ev = true -> step v h o loader random ev w = w.
Proof.
  destruct ev as [| | |[|[|] es]|]; simpl; try discriminate.
  intros _. destruct (observing w); reflexivity.
Qed.

Lemma nonIntersecting_run (evs : list Event) (w : World) :
  forallb nonIntersecting evs = true -> run v h o loader random evs w = w.
Proof.
  induction evs as [|ev evs IH]; simpl; intros H.
  - reflexivity.
  - apply andb_true_iff in H as [Hev Hevs].
    rewrite (nonIntersecting_step _ _ Hev). apply IH, Hevs.
Qed.

(** Calls of the loader are only ever added. *)
Lemma invocations_step (ev : Event) (w : World) :
  invocations w <= invocations (step v h o loader random ev w).
Proof.
  destruct w as [rq rt tm rc ph ob obs inv dr lg].
  destruct ev as [| | |entries|]; simpl.
  - destruct rq; simpl; auto;
      unfold load, runOnError, onError; simpl;
      destruct (wiring v h); simpl; auto;
      destruct (loader inv); simpl; auto;
      destruct (_ >? _)%Z; simpl; auto.
  - destruct ph; simpl; auto.
    destruct (mountable v h _); simpl; auto.
    unfold onMounted, startObserving, loadComponent, resolve, thrown; simpl.
    destruct v, (hasIntersectionObserver h), (loader inv), rc, rq; simpl; auto.
  - destruct ph; simpl; auto.
  - destruct ob; simpl; auto.
    destruct entries as [|[|] es]; simpl; auto.
    unfold loadComponent, resolve, thrown; simpl.
    destruct ph, v, (loader inv), rc, rq; simpl; auto.
  - destruct tm as [|d tm]; simpl; auto.
    unfold retry, load, runOnError, onError; simpl.
    destruct (wiring v h); simpl; auto.
    destruct (loader inv); simpl; auto.
    destruct (_ >? _)%Z; simpl; auto.
Qed.

Lemma invocations_run (evs : list Event) (w : World) :
  invocations w <= invocations (run v h o loader random evs w).
Proof.
  revert w. induction evs as [|ev evs IH]; intros w; simpl.
  - auto.
  - etransitivity; [apply (invocations_step ev)|apply IH].
Qed.

(** One [Math.random()] per timer set, no more and no fewer. *)
Lemma draws_step (ev : Event) (w : World) :
  draws w = timersSet (log w) ->
  draws (step v h o loader random ev w)
  = timersSet (log (step v h o loader random ev w)).
Proof.
  destruct w as [rq rt tm rc ph ob obs inv dr lg]. simpl. intros ->.
  assert (Hload : forall w, draws w = timersSet (log w) ->
            draws (load v h o loader random w)
            = timersSet (log (load v h o loader random w))).
  { intros [rq' rt' tm' rc' ph' ob' obs' inv' dr' lg']. simpl. intros ->.
    unfold load, runOnError, onError; simpl.
    destruct (wiring v h); simpl; auto.
    destruct (loader inv'); simpl; auto.
    destruct (_ >? _)%Z; simpl; auto. }
  destruct ev as [| | |entries|]; simpl.
  - destruct rq; simpl; auto; apply Hload; reflexivity.
  - destruct ph; simpl; auto.
    destruct (mountable v h _); simpl; auto.
    unfold onMounted, startObserving, loadComponent, resolve, thrown; simpl.
    destruct v, (hasIntersectionObserver h), (loader inv), rc, rq; simpl; auto.
  - destruct ph; simpl; auto.
  - destruct ob; simpl; auto.
    destruct entries as [|[|] es]; simpl; auto.
    unfold loadComponent, resolve, thrown; simpl.
    destruct ph, v, (loader inv), rc, rq; simpl; auto.
  - destruct tm as [|d tm]; simpl; auto.
    unfold retry. apply Hload. reflexivity.
Qed.

End AnyWiring.

(** ** The log *)

(** A log without retry effects holds no warning, no [fail()] and no
    timer. *)
Lemma noRetryEffect_In (l : list Effect) :
  noRetryEffect l = true ->
  (forall a, ~ In (Warn a) l) /\ ~ In CallFail l /\ (forall d, ~ In (SetTimeout d) l).
Proof.
  unfold noRetryEffect. rewrite forallb_forall. intros H.
  repeat split; repeat intro;
    match goal with Hin : In _ l |- _ => apply H in Hin; discriminate Hin end.
Qed.

(** In a log that [releasedBeforeEachCall] accepts, what stands right
    before any call of the loader is an [unobserve]. *)
Lemma releasedBeforeEachCall_tail (e : Effect) (l : list Effect) :
  releasedBeforeEachCall (e :: l) = true -> releasedBeforeEachCall l = true.
Proof.
  destruct e; simpl; auto.
  destruct l as [|[] l']; simpl; auto; discriminate.
Qed.

Lemma releasedBeforeEachCall_split (l : list Effect) :
  releasedBeforeEachCall l = true ->
  forall later earlier, l = later ++ CallLoader :: earlier ->
  exists rest, earlier = Unobserve :: rest.
Proof.
  intros Hl later. revert l Hl.
  induction later as [|e later IH]; intros l Hl earlier ->; simpl in Hl.
  - destruct earlier as [|[] rest]; try discriminate. now exists rest.
  - apply (IH (later ++ CallLoader :: earlier)); auto.
    now apply (releasedBeforeEachCall_tail e).
Qed.

(** ** A host with IntersectionObserver *)

Section WithObserver.

Variable v : Variant.
Variable h : Host.
Variable o : Options.
Variable loader : nat -> Settlement.
Variable random : nat -> Q.
Hypothesis HasIO : hasIntersectionObserver h = true.

(** With an IntersectionObserver both copies use the promise wrapper. *)
Lemma observer_wiring : wiring v h = Gated.
Proof. unfold wiring. rewrite HasIO. now destruct v. Qed.

(** The loader is only called from the observer's callback, which has
    released the element just before. *)
Lemma released_step (ev : Event) (w : World) :
  releasedBeforeEachCall (log w) = true ->
  releasedBeforeEachCall (log (step v h o loader random ev w)) = true.
Proof.
  destruct w as [rq rt tm rc ph ob obs inv dr lg]. simpl. intros Hlg.
  destruct ev as [| | |entries|]; simpl.
  - unfold load. rewrite observer_wiring. destruct rq; simpl; auto.
  - destruct ph; simpl; auto.
    destruct (mountable v h _); simpl; auto.
    unfold onMounted. rewrite HasIO. destruct v; simpl; auto.
  - destruct ph; simpl; auto.
  - destruct ob; simpl; auto.
    destruct entries as [|[|] es]; simpl; auto.
    unfold loadComponent, resolve, thrown; simpl.
    destruct ph, v, (loader inv), rc, rq; simpl; auto.
  - destruct tm as [|d tm]; simpl; auto.
    unfold retry, load. rewrite observer_wiring. simpl; auto.
Qed.

(** Mounting the loading component arms the gate. *)
Lemma armed_after_mount :
  let w := run v h o loader random [Setup; Mount] init in
  observing w = true /\ phase w = Mounted /\ invocations w = 0
  /\ timers w = [] /\ ~ In Unobserve (log w).
Proof.
  simpl. unfold load. rewrite observer_wiring. simpl.
  assert (Hm : forall w, request w = Pending -> mountable v h w = true).
  { intros w Hw. unfold mountable. rewrite observer_wiring, Hw. now destruct v. }
  rewrite Hm by reflexivity.
  unfold onMounted. rewrite HasIO.
  destruct v; simpl; intuition discriminate.
Qed.

(** Once the loading component is gone, [elRef.value] is [null]: a late
    intersecting report throws at [unobserve] and never reaches the
    loader. *)
Lemma torn_down_step (ev : Event) (w : World) :
  torn_down w -> torn_down (step v h o loader random ev w).
Proof.
  destruct w as [rq rt tm rc ph ob obs inv dr lg].
  unfold torn_down; simpl. intros (-> & -> & -> & -> & Hlg).
  destruct ev as [| | |entries|]; simpl; auto.
  - unfold load. rewrite observer_wiring. destruct rq; simpl; auto.
  - destruct entries as [|[|] es]; simpl; intuition discriminate.
Qed.

End WithObserver.

(** ** A host without IntersectionObserver *)

Section WithoutObserver.

Variable v : Variant.
Variable h : Host.
Variable o : Options.
Variable loader : nat -> Settlement.
Variable random : nat -> Q.
Hypothesis NoIO : hasIntersectionObserver h = false.

(** No step constructs an observer. *)
Lemma no_observer_step (ev : Event) (w : World) :
  observers w = 0 /\ observing w = false /\ ~ In NewObserver (log w) ->
  let w' := step v h o loader random ev w in
  observers w' = 0 /\ observing w' = false /\ ~ In NewObserver (log w').
Proof.
  destruct w as [rq rt tm rc ph ob obs inv dr lg]. simpl.
  intros (-> & -> & Hlg).
  assert (Hload : forall w, observers w = 0 /\ observing w = false
                             /\ ~ In NewObserver (log w) ->
            observers (load v h o loader random w) = 0
            /\ observing (load v h o loader random w) = false
            /\ ~ In NewObserver (log (load v h o loader random w))).
  { intros [rq' rt' tm' rc' ph' ob' obs' inv' dr' lg']. simpl.
    intros (-> & -> & Hlg').
    unfold load, runOnError, onError; simpl.
    destruct (wiring v h); simpl; auto.
    destruct (loader inv'); simpl; [intuition discriminate|].
    destruct (_ >? _)%Z; simpl; intuition discriminate. }
  destruct ev as [| | |entries|]; simpl.
  - destruct rq; simpl; auto.
  - destruct ph; simpl; auto.
    destruct (mountable v h _) eqn:Hm; simpl; auto.
    unfold mountable, wiring in Hm. rewrite NoIO in Hm.
    destruct v; [|destruct rq; discriminate].
    unfold onMounted. rewrite NoIO. simpl.
    unfold loadComponent, resolve, thrown; simpl.
    destruct (loader inv), rc, rq; simpl; intuition discriminate.
  - destruct ph; simpl; auto.
  - auto.
  - destruct tm as [|d tm]; simpl; auto.
    unfold retry. apply Hload. simpl; auto.
Qed.

End WithoutObserver.

(** ** The direct wiring: the retry loop *)

Section DirectWiring.

Variable v : Variant.
Variable h : Host.
Variable o : Options.
Variable loader : nat -> Settlement.
Variable random : nat -> Q.
Hypothesis Hdirect : wiring v h = Direct.

(** Only part_000 without IntersectionObserver is wired directly, and it
    has no loading component of its own. *)
Lemma direct_is_part000 : v = Part000 /\ hasIntersectionObserver h = false.
Proof.
  unfold wiring in Hdirect. destruct v; [discriminate|].
  destruct (hasIntersectionObserver h); [discriminate|auto].
Qed.

Lemma direct_not_mountable (w : World) : mountable v h w = false.
Proof.
  unfold mountable. rewrite Hdirect.
  destruct direct_is_part000 as [-> _]. now destruct (request w).
Qed.

(** [direct_inv] holds at the start and is kept by every step. *)
Lemma direct_inv_init : direct_inv (maxRetries o) init.
Proof.
  unfold direct_inv; simpl. repeat split; auto; try lia; contradiction.
Qed.

(** One call of [load()] by the direct wiring, no timer pending. *)
Lemma direct_load (w : World) :
  phase w = NotMounted -> observing w = false ->
  (Z.of_nat (retries w) <= Z.max 0 (maxRetries o))%Z ->
  (forall a, In a (attemptsSeen (log w)) ->
     (1 <= a <= Z.of_nat (retries w) + 1)%Z) ->
  retries w <= invocations w -> timers w = [] ->
  direct_inv (maxRetries o) (load v h o loader random w).
Proof.
  destruct w as [rq rt tm rc ph ob obs inv dr lg]. simpl.
  intros -> -> Hrt Hlg Hinv ->.
  unfold load. rewrite Hdirect. simpl.
  destruct (loader inv) as [c|e]; simpl.
  - unfold direct_inv; simpl. repeat split; auto; try apply Hlg; auto; lia.
  - unfold runOnError, onError; simpl.
    assert (Hseen : forall a, (Z.of_nat rt + 1)%Z = a \/ In a (attemptsSeen lg) ->
              (1 <= a <= Z.of_nat rt + 1)%Z).
    { intros a [<-|Ha]; [lia|now apply Hlg]. }
    destruct (Z.gtb_spec (Z.of_nat rt + 1) (maxRetries o)); simpl;
      unfold direct_inv; simpl; repeat split; auto; try apply Hseen; auto;
      try lia; eauto.
Qed.

Lemma direct_inv_step (ev : Event) (w : World) :
  direct_inv (maxRetries o) w ->
  direct_inv (maxRetries o) (step v h o loader random ev w).
Proof.
  intros Hw. destruct ev as [| | |entries|]; simpl.
  - (* Setup *)
    destruct Hw as (Hph & Hob & Hrt & Hlg & Hm).
    destruct (request w) eqn:Hrq.
    + apply direct_load; auto; try tauto. lia.
    + unfold direct_inv. rewrite Hrq. auto.
    + unfold direct_inv. rewrite Hrq. auto.
    + apply direct_load; auto; try tauto. lia.
  - (* Mount: the direct wiring has no loading component *)
    destruct (phase w); auto. now rewrite direct_not_mountable.
  - (* Unmount *)
    pose proof Hw as (Hph & _). now rewrite Hph.
  - (* Intersection *)
    pose proof Hw as (_ & Hob & _). now rewrite Hob.
  - (* TimerFires *)
    destruct (timers w) as [|d rest] eqn:Htm; auto.
    destruct Hw as (Hph & Hob & Hrt & Hlg & Hm).
    destruct (request w) eqn:Hrq;
      try (destruct Hm as (Hnil & _); congruence);
      try (destruct Hm as (_ & Hnil & _); congruence).
    destruct Hm as ((d' & Hd) & Hle & Hinv).
    rewrite Htm in Hd. injection Hd as -> ->.
    unfold retry. apply direct_load; destruct w; simpl in *; auto; try lia.
    intros a Ha. specialize (Hlg a Ha). lia.
Qed.

Lemma direct_inv_run (evs : list Event) :
  direct_inv (maxRetries o) (run v h o loader random evs init).
Proof. apply run_invariant; [apply direct_inv_step|apply direct_inv_init]. Qed.

(** A fulfilled request is final: no event changes the world any more.
    A rejected one is left alone by everything but a new instantiation. *)
Lemma direct_settled_step (ev : Event) (w : World) :
  direct_inv (maxRetries o) w ->
  (exists c, request w = Fulfilled c)
  \/ ((exists e, request w = Rejected e) /\ notSetup ev = true) ->
  step v h o loader random ev w = w.
Proof.
  intros (Hph & Hob & Hrt & Hlg & Hm) Hrq.
  assert (Htm : timers w = []).
  { destruct Hrq as [[c Hrq]|[[e Hrq] _]]; rewrite Hrq in Hm; tauto. }
  destruct ev; simpl.
  - destruct Hrq as [[c Hrq]|[_ Hev]]; [now rewrite Hrq|discriminate Hev].
  - now rewrite Hph, direct_not_mountable.
  - now rewrite Hph.
  - now rewrite Hob.
  - now rewrite Htm.
Qed.

Lemma direct_settled_run (evs : list Event) (w : World) :
  direct_inv (maxRetries o) w ->
  (exists c, request w = Fulfilled c)
  \/ ((exists e, request w = Rejected e) /\ forallb notSetup evs = true) ->
  run v h o loader random evs w = w.
Proof.
  intros Hw Hrq. induction evs as [|ev evs IH]; simpl; auto.
  rewrite direct_settled_step; auto.
  - apply IH. destruct Hrq as [Hc|[He Hevs]]; [now left|right].
    simpl in Hevs. apply andb_true_iff in Hevs. tauto.
  - destruct Hrq as [Hc|[He Hevs]]; [now left|right].
    simpl in Hevs. apply andb_true_iff in Hevs. tauto.
Qed.

(** Another instantiation after the terminal failure: Vue calls the loader
    once more, with its retry counter where it was. *)
Lemma direct_setup_after_failure (e : Error) (w : World) :
  direct_inv (maxRetries o) w -> request w = Rejected e ->
  let w' := step v h o loader random Setup w in
  invocations w' = S (invocations w) /\ retries w' = retries w
  /\ timers w' = []
  /\ match loader (invocations w) with
     | Fulfils c => request w' = Fulfilled c
     | Rejects e' =>
         request w' = Rejected e'
         /\ attemptsSeen (log w')
            = (Z.of_nat (retries w) + 1)%Z :: attemptsSeen (log w)
     end.
Proof.
  intros (Hph & Hob & Hrt & Hlg & Hm) Hrq. rewrite Hrq in Hm.
  destruct Hm as (Htm & Hn & Hinv).
  destruct w as [rq rt tm rc ph ob obs inv dr lg]. simpl in *. subst rq tm.
  unfold load. rewrite Hdirect. simpl.
  destruct (loader inv) as [c|e']; simpl; [auto|].
  unfold runOnError, onError; simpl.
  destruct (Z.gtb_spec (Z.of_nat rt + 1) (maxRetries o)); [|lia].
  simpl. auto.
Qed.

(** While the loader keeps failing and retries are left, each timer leads
    to one more call and one more timer, whose delay is computed from the
    number of the failure and from a draw of its own. *)
Lemma direct_failing_prefix (j : nat) :
  (forall k, k <= j -> exists e, loader k = Rejects e) ->
  (Z.of_nat j < maxRetries o)%Z ->
  let w := run v h o loader random (Setup :: repeat TimerFires j) init in
  invocations w = S j /\ retries w = j /\ request w = Pending
  /\ timers w = [jitteredDelay (retryDelay o) (Z.of_nat (S j)) (random j)]
  /\ draws w = S j
  /\ attemptsSeen (log w) = countdown (S j).
Proof.
  induction j as [|j IH]; intros Hp Hn.
  - destruct (Hp 0 (Nat.le_refl 0)) as [e He].
    simpl. unfold load. rewrite Hdirect. simpl. rewrite He.
    unfold runOnError, onError. simpl.
    destruct (Z.gtb_spec 1 (maxRetries o)); [lia|].
    simpl. auto 10.
  - cbv zeta in *.
    replace (Setup :: repeat TimerFires (S j))
      with ((Setup :: repeat TimerFires j) ++ [TimerFires]).
    2:{ simpl. f_equal. now rewrite <- repeat_cons. }
    rewrite run_app.
    set (w := run v h o loader random (Setup :: repeat TimerFires j) init) in *.
    destruct IH as (Hinv & Hrt & Hrq & Htm & Hdr & Hlg);
      [intros; apply Hp; lia|lia|].
    destruct (Hp (S j) (Nat.le_refl _)) as [e He].
    change (run v h o loader random [TimerFires] w)
      with (step v h o loader random TimerFires w).
    unfold step. rewrite Htm. unfold retry, load. rewrite Hdirect.
    world_fields. rewrite Hinv, He, Hrt.
    replace (Z.of_nat (S j) + 1)%Z with (Z.of_nat (S (S j))) by lia.
    unfold runOnError, onError. world_fields. rewrite Hdr.
    destruct (Z.gtb_spec (Z.of_nat (S (S j))) (maxRetries o)); [lia|].
    world_fields. cbn [attemptsSeen]. rewrite Hlg. repeat split.
Qed.

(** A loader that fails every time, [n] retries allowed: after [n] timers
    the request is rejected, with [n + 1] calls made. *)
Lemma direct_exhausted (e : Error) (n : nat) :
  loader = (fun _ => Rejects e) ->
  maxRetries o = Z.of_nat n ->
  let w := run v h o loader random (Setup :: repeat TimerFires n) init in
  invocations w = S n /\ retries w = n /\ request w = Rejected e
  /\ timers w = [] /\ attemptsSeen (log w) = countdown (S n).
Proof.
  intros Hp Hn. destruct n as [|j].
  - simpl. unfold load. rewrite Hdirect, Hp. simpl.
    unfold runOnError, onError. rewrite Hn. simpl. auto.
  - cbv zeta.
    replace (Setup :: repeat TimerFires (S j))
      with ((Setup :: repeat TimerFires j) ++ [TimerFires]).
    2:{ simpl. f_equal. now rewrite <- repeat_cons. }
    rewrite run_app.
    destruct (direct_failing_prefix j) as (Hinv & Hrt & Hrq & Htm & Hdr & Hlg).
    { intros k _. exists e. now rewrite Hp. }
    { lia. }
    set (w := run v h o loader random (Setup :: repeat TimerFires j) init) in *.
    change (run v h o loader random [TimerFires] w)
      with (step v h o loader random TimerFires w).
    unfold step. rewrite Htm. unfold retry, load. rewrite Hdirect.
    world_fields. rewrite Hp, Hinv, Hrt.
    replace (Z.of_nat (S j) + 1)%Z with (Z.of_nat (S (S j))) by lia.
    unfold runOnError, onError. world_fields. rewrite Hn.
    destruct (Z.gtb_spec (Z.of_nat (S (S j))) (Z.of_nat (S j))); [|lia].
    world_fields. cbn [attemptsSeen]. rewrite Hlg. repeat split.
Qed.

(** The same loader after any number [j] of timers: [min (j+1) (n+1)]
    calls. *)
Lemma direct_always_failing (e : Error) (n j : nat) :
  loader = (fun _ => Rejects e) ->
  maxRetries o = Z.of_nat n ->
  let w := run v h o loader random (Setup :: repeat TimerFires j) init in
  invocations w = Nat.min (S j) (S n)
  /\ attemptsSeen (log w) = countdown (invocations w)
  /\ (j < n -> request w = Pending /\ exists d, timers w = [d])
  /\ (n <= j -> request w = Rejected e /\ timers w = [] /\ retries w = n).
Proof.
  intros Hp Hn. cbv zeta.
  destruct (Nat.lt_ge_cases j n) as [Hjn|Hjn].
  - destruct (direct_failing_prefix j) as (Hinv & Hrt & Hrq & Htm & Hdr & Hlg).
    { intros k _. exists e. now rewrite Hp. }
    { lia. }
    rewrite Hinv, Nat.min_l by lia.
    repeat split; auto; try lia; eauto.
  - destruct (direct_exhausted e n Hp Hn) as (Hinv & Hrt & Hrq & Htm & Hlg).
    replace (Setup :: repeat TimerFires j)
      with ((Setup :: repeat TimerFires n) ++ repeat TimerFires (j - n)).
    2:{ simpl. f_equal. rewrite <- repeat_app. f_equal. lia. }
    rewrite run_app, direct_settled_run.
    + rewrite Hinv, Nat.min_r by lia. repeat split; auto; lia.
    + apply direct_inv_run.
    + right. split; [eauto|]. apply forallb_forall.
      intros ev Hev. apply repeat_spec in Hev. now subst ev.
Qed.

(** The loader fails on its first [p] calls and succeeds on the next one,
    with [p] retries allowed: [p + 1] calls, no timer left, and nothing
    that happens afterwards calls the loader again. *)
Lemma direct_fail_then_succeed (p : nat) (c : Component) :
  (forall k, k < p -> exists e, loader k = Rejects e) ->
  loader p = Fulfils c ->
  (Z.of_nat p <= maxRetries o)%Z ->
  let w := run v h o loader random (Setup :: repeat TimerFires p) init in
  invocations w = S p /\ request w = Fulfilled c /\ timers w = []
  /\ attemptsSeen (log w) = countdown p
  /\ forall evs, run v h o loader random evs w = w.
Proof.
  intros Hfail Hok Hn.
  assert (Hstate :
    let w := run v h o loader random (Setup :: repeat TimerFires p) init in
    invocations w = S p /\ request w = Fulfilled c /\ timers w = []
    /\ attemptsSeen (log w) = countdown p).
  { destruct p as [|j].
    - simpl. unfold load. rewrite Hdirect. simpl. rewrite Hok. simpl. auto.
    - cbv zeta.
      replace (Setup :: repeat TimerFires (S j))
        with ((Setup :: repeat TimerFires j) ++ [TimerFires]).
      2:{ simpl. f_equal. now rewrite <- repeat_cons. }
      rewrite run_app.
      destruct (direct_failing_prefix j) as (Hinv & Hrt & Hrq & Htm & Hdr & Hlg);
        [intros; apply Hfail; lia|lia|].
      set (w := run v h o loader random (Setup :: repeat TimerFires j) init) in *.
      change (run v h o loader random [TimerFires] w)
        with (step v h o loader random TimerFires w).
      unfold step. rewrite Htm. unfold retry, load. rewrite Hdirect.
      world_fields. rewrite Hinv, Hok. world_fields. cbn [attemptsSeen].
      rewrite Hlg. repeat split. }
  cbv zeta in *. destruct Hstate as (Hinv & Hrq & Htm & Hlg).
  repeat split; auto.
  intros evs. apply direct_settled_run; eauto.
  apply direct_inv_run.
Qed.

End DirectWiring.

(** ** JavaScript numbers: the rounding *)

Section Rounding.

Local Open Scope Q_scope.

(** *** Powers of two *)

Lemma pow2_pos (e : Z) : 0 < pow2 e.
Proof. apply Qpower_0_lt. reflexivity. Qed.

Lemma pow2_add (a b : Z) : pow2 (a + b) == pow2 a * pow2 b.
Proof. apply Qpower_plus. discriminate. Qed.

Lemma pow2_le (a b : Z) : (a <= b)%Z -> pow2 a <= pow2 b.
Proof. intros H. apply Qpower_le_compat_l; [exact H|discriminate]. Qed.

Lemma pow2_lt_inv (a b : Z) : pow2 a < pow2 b -> (a < b)%Z.
Proof. intros H. apply (Qpower_lt_compat_l_inv (2 # 1)); [exact H|reflexivity]. Qed.

Lemma pow2_Z (e : Z) : (0 <= e)%Z -> pow2 e == inject_Z (2 ^ e).
Proof. intros H. unfold pow2. now rewrite Zpower_Qpower. Qed.

Lemma pow2_cancel (e : Z) : pow2 (- e) * pow2 e == 1.
Proof. rewrite <- pow2_add. now replace (- e + e)%Z with 0%Z by lia. Qed.

(** *** The binade of a positive rational *)

(** [ilog2 q] is the binade of [q]. *)
Lemma ilog2_spec (q : Q) : 0 < q -> pow2 (ilog2 q) <= q /\ q < pow2 (ilog2 q + 1).
Proof.
  intros Hq. destruct q as [a b].
  assert (Ha : (0 < a)%Z).
  { unfold Qlt in Hq; simpl in Hq. lia. }
  unfold ilog2; simpl Qnum; simpl Qden.
  set (la := Z.log2 a). set (lb := Z.log2 (Z.pos b)).
  assert (Hla : (0 <= la)%Z) by apply Z.log2_nonneg.
  assert (Hlb : (0 <= lb)%Z) by apply Z.log2_nonneg.
  destruct (Z.log2_spec a Ha) as [Ha1 Ha2]. fold la in Ha1, Ha2.
  destruct (Z.log2_spec (Z.pos b) eq_refl) as [Hb1 Hb2]. fold lb in Hb1, Hb2.
  assert (Hlow : pow2 (la - lb - 1) < a # b).
  { apply (Qmult_lt_r _ _ (pow2 (lb + 1))); [apply pow2_pos|].
    rewrite <- pow2_add. replace (la - lb - 1 + (lb + 1))%Z with la by lia.
    rewrite !pow2_Z by lia.
    assert (H2 : (0 < 2 ^ la)%Z) by (apply Z.pow_pos_nonneg; lia).
    unfold Qlt, Qmult, inject_Z; simpl. rewrite Z.mul_1_r, Pos.mul_1_r.
    rewrite <- Z.add_1_r in Hb2. nia. }
  assert (Hhigh : a # b < pow2 (la - lb + 1)).
  { apply (Qmult_lt_r _ _ (pow2 lb)); [apply pow2_pos|].
    rewrite <- pow2_add. replace (la - lb + 1 + lb)%Z with (la + 1)%Z by lia.
    rewrite !pow2_Z by lia.
    assert (H2 : (0 < 2 ^ lb)%Z) by (apply Z.pow_pos_nonneg; lia).
    unfold Qlt, Qmult, inject_Z; simpl. rewrite Z.mul_1_r, Pos.mul_1_r.
    rewrite <- Z.add_1_r in Ha2. nia. }
  destruct (Qle_bool (pow2 (la - lb)) (a # b)) eqn:Hcmp.
  - apply Qle_bool_iff in Hcmp. split; auto.
  - split.
    + now apply Qlt_le_weak.
    + replace (la - lb - 1 + 1)%Z with (la - lb)%Z by lia.
      apply Qnot_le_lt. intros Hle. apply Qle_bool_iff in Hle. congruence.
Qed.

(** A rational lies in one binade only. *)
Lemma ilog2_unique (q : Q) (e : Z) :
  pow2 e <= q -> q < pow2 (e + 1) -> ilog2 q = e.
Proof.
  intros Hlo Hhi.
  assert (Hq : 0 < q) by (eapply Qlt_le_trans; [apply pow2_pos|exact Hlo]).
  destruct (ilog2_spec q Hq) as [Hlo' Hhi'].
  assert (H1 : (e < ilog2 q + 1)%Z).
  { apply pow2_lt_inv. eapply Qle_lt_trans; eauto. }
  assert (H2 : (ilog2 q < e + 1)%Z).
  { apply pow2_lt_inv. eapply Qle_lt_trans; eauto. }
  lia.
Qed.

(** So the binade does not depend on how the rational is written, and it
    grows with the rational. *)
Lemma ilog2_comp (q q' : Q) : 0 < q -> q == q' -> ilog2 q = ilog2 q'.
Proof.
  intros Hq Heq. symmetry. destruct (ilog2_spec q Hq) as [Hlo Hhi].
  apply ilog2_unique; now rewrite <- Heq.
Qed.

Lemma ilog2_mono (q q' : Q) : 0 < q -> q <= q' -> (ilog2 q <= ilog2 q')%Z.
Proof.
  intros Hq Hle.
  assert (Hq' : 0 < q') by (eapply Qlt_le_trans; eauto).
  destruct (ilog2_spec q Hq) as [Hlo _].
  destruct (ilog2_spec q' Hq') as [_ Hhi'].
  assert (H : (ilog2 q < ilog2 q' + 1)%Z).
  { apply pow2_lt_inv. eapply Qle_lt_trans; [exact Hlo|].
    eapply Qle_lt_trans; eauto. }
  lia.
Qed.

(** *** Rounding to an integer *)

(** The rounded integer is at most one half away. *)
Lemma rne_spec (x : Q) :
  inject_Z (rne x) - (1 # 2) <= x /\ x <= inject_Z (rne x) + (1 # 2).
Proof.
  pose proof (Qfloor_le x) as Hlo. pose proof (Qlt_floor x) as Hhi.
  rewrite inject_Z_plus in Hhi. change (inject_Z 1) with 1 in Hhi.
  unfold rne.
  destruct (Qcompare_spec (x - inject_Z (Qfloor x)) (1 # 2)) as [Heq|Hlt|Hgt].
  - destruct (Z.even (Qfloor x)); rewrite ?inject_Z_plus;
      change (inject_Z 1) with 1; lra.
  - lra.
  - rewrite inject_Z_plus. change (inject_Z 1) with 1. lra.
Qed.

(** It does not depend on how the rational is written. *)
Lemma rne_comp (x y : Q) : x == y -> rne x = rne y.
Proof.
  intros H. unfold rne. rewrite (Qfloor_comp _ _ H).
  assert (Hc : Qcompare (x - inject_Z (Qfloor y)) (1 # 2)
               = Qcompare (y - inject_Z (Qfloor y)) (1 # 2)).
  { apply Qcompare_comp; [now rewrite H|reflexivity]. }
  now rewrite Hc.
Qed.

(** Integers are left as they are. *)
Lemma rne_inject_Z (n : Z) : rne (inject_Z n) = n.
Proof.
  unfold rne. rewrite Qfloor_Z.
  destruct (Qcompare_spec (inject_Z n - inject_Z n) (1 # 2)); [lra|reflexivity|lra].
Qed.

(** Rounding keeps the order: were [rne y < rne x] with [x <= y], both
    would be the midpoint between the two integers, and round alike. *)
Lemma rne_mono (x y : Q) : x <= y -> (rne x <= rne y)%Z.
Proof.
  intros Hxy.
  destruct (Z.le_gt_cases (rne x) (rne y)) as [H|H]; [exact H|].
  destruct (rne_spec x) as [Hx _]. destruct (rne_spec y) as [_ Hy].
  assert (Hz : inject_Z (rne y) + 1 <= inject_Z (rne x)).
  { change 1 with (inject_Z 1). rewrite <- inject_Z_plus, <- Zle_Qle. lia. }
  assert (Heq : x == y) by lra.
  rewrite (rne_comp _ _ Heq) in H. lia.
Qed.

(** *** Rounding to 53 bits, with gradual underflow *)

Lemma ulp_exp_comp (q q' : Q) : 0 < q -> q == q' -> ulp_exp q = ulp_exp q'.
Proof. intros Hq Heq. unfold ulp_exp. now rewrite (ilog2_comp q q' Hq Heq). Qed.

Lemma ulp_exp_mono (q q' : Q) : 0 < q -> q <= q' -> (ulp_exp q <= ulp_exp q')%Z.
Proof.
  intros Hq Hle. unfold ulp_exp. pose proof (ilog2_mono q q' Hq Hle). lia.
Qed.

(** Scaled by its unit in the last place, a positive rational is below
    [2^53]; it is at least [2^52] unless it is subnormal. *)
Lemma scaled_lt (q : Q) : 0 < q -> q * pow2 (- ulp_exp q) < pow2 prec.
Proof.
  intros Hq. destruct (ilog2_spec q Hq) as [_ Hhi].
  apply Qlt_le_trans with (pow2 (ilog2 q + 1) * pow2 (- ulp_exp q)).
  - apply Qmult_lt_compat_r; [apply pow2_pos|exact Hhi].
  - rewrite <- pow2_add. apply pow2_le. unfold ulp_exp. lia.
Qed.

Lemma scaled_ge (q : Q) :
  0 < q -> (emin <= ilog2 q)%Z -> pow2 (prec - 1) <= q * pow2 (- ulp_exp q).
Proof.
  intros Hq Hn. destruct (ilog2_spec q Hq) as [Hlo _].
  apply Qle_trans with (pow2 (ilog2 q) * pow2 (- ulp_exp q)).
  - rewrite <- pow2_add. apply pow2_le. unfold ulp_exp. lia.
  - apply Qmult_le_compat_r; [exact Hlo|apply Qlt_le_weak, pow2_pos].
Qed.

Lemma rne_scaled (q : Q) :
  0 < q ->
  (0 <= rne (q * pow2 (- ulp_exp q)) <= 2 ^ prec)%Z
  /\ ((emin <= ilog2 q)%Z -> (2 ^ (prec - 1) <= rne (q * pow2 (- ulp_exp q)))%Z).
Proof.
  intros Hq. pose proof (scaled_lt q Hq) as Hhi.
  rewrite (pow2_Z prec) in Hhi by (unfold prec; lia).
  repeat split.
  - rewrite <- (rne_inject_Z 0). apply rne_mono.
    apply Qmult_le_0_compat; [lra|apply Qlt_le_weak, pow2_pos].
  - rewrite <- (rne_inject_Z (2 ^ prec)). now apply rne_mono, Qlt_le_weak.
  - intros Hn. pose proof (scaled_ge q Hq Hn) as Hlo.
    rewrite (pow2_Z (prec - 1)) in Hlo by (unfold prec; lia).
    rewrite <- (rne_inject_Z (2 ^ (prec - 1))). now apply rne_mono.
Qed.

Lemma round_pos_nonneg (q : Q) : 0 < q -> 0 <= round_pos q.
Proof.
  intros Hq. unfold round_pos. destruct (rne_scaled q Hq) as [[Hlo _] _].
  apply Qmult_le_0_compat; [|apply Qlt_le_weak, pow2_pos].
  change 0 with (inject_Z 0). now rewrite <- Zle_Qle.
Qed.

(** The rounding does not depend on how the rational is written. *)
Lemma round_pos_comp (q q' : Q) : 0 < q -> q == q' -> round_pos q == round_pos q'.
Proof.
  intros Hq Heq. unfold round_pos.
  rewrite <- (ulp_exp_comp q q' Hq Heq).
  rewrite (rne_comp (q * pow2 (- ulp_exp q)) (q' * pow2 (- ulp_exp q)));
    [reflexivity|].
  apply Qmult_comp; [exact Heq|reflexivity].
Qed.

(** The rounding keeps the order: under one unit as [rne] does, and
    across units because a binade rounds to nothing above the power of two
    that starts the next one. *)
Lemma round_pos_mono (q q' : Q) : 0 < q -> q <= q' -> round_pos q <= round_pos q'.
Proof.
  intros Hq Hle.
  assert (Hq' : 0 < q') by (eapply Qlt_le_trans; eauto).
  pose proof (ulp_exp_mono q q' Hq Hle) as He.
  unfold round_pos.
  destruct (rne_scaled q Hq) as [[_ Hhi] _].
  destruct (rne_scaled q' Hq') as [_ Hlo'].
  set (e := ulp_exp q) in *. set (e' := ulp_exp q') in *.
  destruct (Z.eq_dec e e') as [Heq|Hne].
  - rewrite <- Heq.
    apply Qmult_le_compat_r; [|apply Qlt_le_weak, pow2_pos].
    rewrite <- Zle_Qle. apply rne_mono.
    apply Qmult_le_compat_r; [exact Hle|apply Qlt_le_weak, pow2_pos].
  - (* q' has a larger unit: it is normal, in a later binade *)
    assert (Hn : (emin <= ilog2 q')%Z) by (unfold e, e', ulp_exp in *; lia).
    specialize (Hlo' Hn).
    apply Qle_trans with (pow2 (prec + e)).
    + rewrite pow2_add. apply Qmult_le_compat_r; [|apply Qlt_le_weak, pow2_pos].
      rewrite (pow2_Z prec) by (unfold prec; lia). now rewrite <- Zle_Qle.
    + apply Qle_trans with (pow2 (prec - 1 + e')).
      * apply pow2_le. lia.
      * rewrite pow2_add. apply Qmult_le_compat_r; [|apply Qlt_le_weak, pow2_pos].
        rewrite (pow2_Z (prec - 1)) by (unfold prec; lia). now rewrite <- Zle_Qle.
Qed.

(** The binary64 numbers round to themselves: a 53-bit integer times a
    power of two not below [2^-1074] (normal), a shorter integer times
    [2^-1074] (subnormal). *)
Lemma round_pos_fixed (n e : Z) :
  (2 ^ (prec - 1) <= n < 2 ^ prec)%Z -> (emin - (prec - 1) <= e)%Z ->
  round_pos (inject_Z n * pow2 e) == inject_Z n * pow2 e.
Proof.
  intros [Hlo Hhi] He.
  assert (Hlog : ilog2 (inject_Z n * pow2 e) = (prec - 1 + e)%Z).
  { apply ilog2_unique.
    - rewrite pow2_add. apply Qmult_le_compat_r; [|apply Qlt_le_weak, pow2_pos].
      rewrite (pow2_Z (prec - 1)) by (unfold prec; lia). now rewrite <- Zle_Qle.
    - replace (prec - 1 + e + 1)%Z with (prec + e)%Z by lia.
      rewrite pow2_add. apply Qmult_lt_compat_r; [apply pow2_pos|].
      rewrite (pow2_Z prec) by (unfold prec; lia). now rewrite <- Zlt_Qlt. }
  unfold round_pos, ulp_exp. rewrite Hlog.
  replace (Z.max (prec - 1 + e) emin - (prec - 1))%Z with e by lia.
  rewrite (rne_comp _ (inject_Z n)); [now rewrite rne_inject_Z|].
  rewrite <- Qmult_assoc, (Qmult_comm (pow2 e)), pow2_cancel. apply Qmult_1_r.
Qed.

Lemma round_pos_fixed_subnormal (n : Z) :
  (0 < n < 2 ^ (prec - 1))%Z ->
  round_pos (inject_Z n * pow2 (emin - (prec - 1)))
  == inject_Z n * pow2 (emin - (prec - 1)).
Proof.
  intros [Hlo Hhi].
  set (e := (emin - (prec - 1))%Z).
  assert (Hpos : 0 < inject_Z n * pow2 e).
  { apply Qmult_lt_0_compat; [|apply pow2_pos].
    change 0 with (inject_Z 0). now rewrite <- Zlt_Qlt. }
  assert (Hlog : (ilog2 (inject_Z n * pow2 e) < emin)%Z).
  { destruct (ilog2_spec _ Hpos) as [Hl _].
    apply pow2_lt_inv. eapply Qle_lt_trans; [exact Hl|].
    replace emin with (prec - 1 + e)%Z by (unfold e; lia).
    rewrite pow2_add. apply Qmult_lt_compat_r; [apply pow2_pos|].
    rewrite (pow2_Z (prec - 1)) by (unfold prec; lia). now rewrite <- Zlt_Qlt. }
  unfold round_pos, ulp_exp.
  replace (Z.max (ilog2 (inject_Z n * pow2 e)) emin - (prec - 1))%Z with e
    by (unfold e in *; lia).
  rewrite (rne_comp _ (inject_Z n)); [now rewrite rne_inject_Z|].
  rewrite <- Qmult_assoc, (Qmult_comm (pow2 e)), pow2_cancel. apply Qmult_1_r.
Qed.

Lemma round_pos_pow2 (k : Z) :
  (emin - (prec - 1) <= k)%Z -> round_pos (pow2 k) == pow2 k.
Proof.
  intros Hk. destruct (Z.le_gt_cases emin k) as [Hn|Hs].
  - assert (H : pow2 k == inject_Z (2 ^ (prec - 1)) * pow2 (k - (prec - 1))).
    { rewrite <- pow2_Z by (unfold prec; lia). rewrite <- pow2_add.
      now replace (prec - 1 + (k - (prec - 1)))%Z with k by lia. }
    rewrite (round_pos_comp _ _ (pow2_pos k) H), H.
    apply round_pos_fixed; [unfold prec; simpl; lia|lia].
  - set (j := (k - (emin - (prec - 1)))%Z).
    assert (H : pow2 k == inject_Z (2 ^ j) * pow2 (emin - (prec - 1))).
    { rewrite <- pow2_Z by (unfold j; lia). rewrite <- pow2_add.
      now replace (j + (emin - (prec - 1)))%Z with k by (unfold j; lia). }
    rewrite (round_pos_comp _ _ (pow2_pos k) H), H.
    apply round_pos_fixed_subnormal. split.
    + apply Z.pow_pos_nonneg; unfold j; lia.
    + apply Z.pow_lt_mono_r; unfold j; lia.
Qed.

(** What a rounding returns rounds to itself. *)
Lemma round_pos_idem (q : Q) :
  0 < q -> 0 < round_pos q -> round_pos (round_pos q) == round_pos q.
Proof.
  intros Hq Hr. destruct (rne_scaled q Hq) as [[Hlo Hhi] Hn].
  unfold round_pos in Hr. unfold round_pos at 2 3.
  set (e := ulp_exp q) in *.
  set (n := rne (q * pow2 (- e))) in *.
  assert (He : (emin - (prec - 1) <= e)%Z) by (unfold e, ulp_exp; lia).
  assert (Hn0 : (0 < n)%Z).
  { destruct (Z.eq_dec n 0) as [H0|H0]; [|lia].
    rewrite H0 in Hr. change (inject_Z 0) with 0 in Hr. lra. }
  destruct (Z.eq_dec n (2 ^ prec)) as [Heq|Hne].
  - assert (H : inject_Z n * pow2 e == pow2 (prec + e)).
    { rewrite Heq, pow2_add, (pow2_Z prec) by (unfold prec; lia). reflexivity. }
    assert (Hpos : 0 < inject_Z n * pow2 e) by (rewrite H; apply pow2_pos).
    rewrite (round_pos_comp _ _ Hpos H), H. apply round_pos_pow2.
    unfold prec in *. lia.
  - destruct (Z.le_gt_cases (2 ^ (prec - 1)) n) as [Hbig|Hsmall].
    + apply round_pos_fixed; lia.
    + assert (e = (emin - (prec - 1))%Z) as ->.
      { destruct (Z.le_gt_cases emin (ilog2 q)) as [Hnorm|Hsub].
        - specialize (Hn Hnorm). lia.
        - unfold e, ulp_exp. lia. }
      apply round_pos_fixed_subnormal. lia.
Qed.

(** *** The order of the numbers *)

Lemma num_le_trans (x y z : number) : num_le x y -> num_le y z -> num_le x z.
Proof.
  destruct x, y, z; simpl; try tauto. apply Qle_trans.
Qed.

Lemma num_eq_le (x y : number) : num_eq x y -> num_le x y.
Proof. destruct x, y; simpl; try tauto. intros H. rewrite H. apply Qle_refl. Qed.

Lemma num_eq_sym (x y : number) : num_eq x y -> num_eq y x.
Proof. destruct x, y; simpl; try tauto. intros H. now symmetry. Qed.

Lemma num_lt_le_trans (x y z : number) : num_lt x y -> num_le y z -> num_lt x z.
Proof.
  destruct x, y, z; simpl; try tauto. apply Qlt_le_trans.
Qed.

Lemma num_le_lt_trans (x y z : number) : num_le x y -> num_lt y z -> num_lt x z.
Proof.
  destruct x, y, z; simpl; try tauto. apply Qle_lt_trans.
Qed.

(** A number between two finite ones is finite. *)
Lemma num_between (a b : Q) (x : number) :
  num_le (Finite a) x -> num_le x (Finite b) ->
  exists q, x = Finite q /\ a <= q /\ q <= b.
Proof. destruct x; simpl; try tauto. eauto. Qed.

(** *** [round64] *)

Lemma round64_pos (q : Q) :
  0 < q ->
  round64 q = if Qle_bool (pow2 emax) (round_pos q) then PosInfinity
              else Finite (round_pos q).
Proof.
  intros Hq. unfold round64.
  destruct (Qcompare_spec q 0); [lra|lra|reflexivity].
Qed.

Lemma round64_neg (q : Q) :
  q < 0 ->
  round64 q = if Qle_bool (pow2 emax) (round_pos (- q)) then NegInfinity
              else Finite (- round_pos (- q)).
Proof.
  intros Hq. unfold round64.
  destruct (Qcompare_spec q 0); [lra|reflexivity|lra].
Qed.

Lemma round64_zero (q : Q) : q == 0 -> round64 q = Finite 0.
Proof.
  intros Hq. unfold round64.
  destruct (Qcompare_spec q 0); [reflexivity|lra|lra].
Qed.

(** What is not negative rounds to a finite number that is not negative,
    or to [Infinity]. *)
Lemma round64_nonneg (q : Q) : 0 <= q -> num_le (Finite 0) (round64 q).
Proof.
  intros Hq. destruct (Qlt_le_dec 0 q) as [Hpos|Hle].
  - rewrite round64_pos by exact Hpos.
    destruct (Qle_bool _ _); simpl; [exact I|now apply round_pos_nonneg].
  - rewrite round64_zero by lra. simpl. lra.
Qed.

Lemma round64_mono (q q' : Q) :
  0 <= q -> q <= q' -> num_le (round64 q) (round64 q').
Proof.
  intros Hq Hle. destruct (Qlt_le_dec 0 q) as [Hpos|Hzero].
  - pose proof (round_pos_mono q q' Hpos Hle) as Hm.
    rewrite !round64_pos by lra.
    destruct (Qle_bool (pow2 emax) (round_pos q')) eqn:H'.
    + destruct (Qle_bool _ (round_pos q)); exact I.
    + destruct (Qle_bool (pow2 emax) (round_pos q)) eqn:H; [|exact Hm].
      apply Qle_bool_iff in H.
      assert (Hc : Qle_bool (pow2 emax) (round_pos q') = true)
        by (apply Qle_bool_iff; lra).
      congruence.
  - rewrite (round64_zero q) by lra. apply round64_nonneg. lra.
Qed.

(** What [round64] returns is a binary64 number: it rounds to itself. *)
Lemma round64_idem (q r : Q) :
  0 <= q -> round64 q = Finite r -> num_eq (round64 r) (Finite r).
Proof.
  intros Hq Hr. destruct (Qlt_le_dec 0 q) as [Hpos|Hzero].
  - rewrite (round64_pos q Hpos) in Hr.
    destruct (Qle_bool (pow2 emax) (round_pos q)) eqn:Hov; [discriminate|].
    injection Hr as <-.
    pose proof (round_pos_nonneg q Hpos) as Hr0.
    destruct (Qlt_le_dec 0 (round_pos q)) as [Hrp|Hrz].
    + rewrite (round64_pos _ Hrp).
      pose proof (round_pos_idem q Hpos Hrp) as Hid.
      destruct (Qle_bool (pow2 emax) (round_pos (round_pos q))) eqn:Hov'.
      * apply Qle_bool_iff in Hov'. rewrite Hid in Hov'.
        apply Qle_bool_iff in Hov'. congruence.
      * simpl. exact Hid.
    + rewrite round64_zero by lra. simpl. lra.
  - rewrite (round64_zero q) in Hr by lra. injection Hr as <-.
    rewrite round64_zero by reflexivity. simpl. reflexivity.
Qed.

(** From [2^1024] on, everything rounds to [Infinity]; from [2^-1074] on,
    nothing rounds to zero. *)
Lemma round64_overflow (q : Q) : pow2 emax <= q -> round64 q = PosInfinity.
Proof.
  intros Hq.
  assert (Hpos : 0 < q) by (eapply Qlt_le_trans; [apply pow2_pos|exact Hq]).
  rewrite (round64_pos q Hpos).
  assert (H : Qle_bool (pow2 emax) (round_pos q) = true).
  { apply Qle_bool_iff.
    rewrite <- (round_pos_pow2 emax) by (unfold emin, emax, prec; lia).
    apply round_pos_mono; [apply pow2_pos|exact Hq]. }
  now rewrite H.
Qed.

Lemma round64_no_underflow (q : Q) :
  pow2 (emin - (prec - 1)) <= q ->
  num_le (Finite (pow2 (emin - (prec - 1)))) (round64 q).
Proof.
  intros Hq.
  assert (Hpos : 0 < q) by (eapply Qlt_le_trans; [apply pow2_pos|exact Hq]).
  rewrite (round64_pos q Hpos).
  destruct (Qle_bool _ _); simpl; [exact I|].
  rewrite <- (round_pos_pow2 (emin - (prec - 1))) at 1 by lia.
  apply round_pos_mono; [apply pow2_pos|exact Hq].
Qed.

(** *** The delay of [onError] *)

(** [1 + Math.random() * 0.5] is a finite number between [1] and [1.5],
    both ends included: [0], [0.5], [1] and [1.5] are binary64 numbers, and
    rounding keeps the order. *)
Lemma jitter_factor_bounds (u : Q) :
  0 <= u -> u < 1 ->
  exists y, fadd (Finite 1) (fmul (Finite u) (Finite (1 # 2))) = Finite y
            /\ 1 <= y /\ y <= 3 # 2.
Proof.
  intros Hu0 Hu1. cbn [fmul].
  destruct (num_between 0 (1 # 2) (round64 (u * (1 # 2)))) as (x & Hx & Hx0 & Hx1).
  - apply round64_nonneg. lra.
  - apply num_le_trans with (round64 (1 # 2)); [apply round64_mono; lra|].
    vm_compute. discriminate.
  - rewrite Hx. cbn [fadd].
    apply num_between.
    + apply num_le_trans with (round64 1); [vm_compute; discriminate|].
      apply round64_mono; lra.
    + apply num_le_trans with (round64 (3 # 2)); [|vm_compute; discriminate].
      apply round64_mono; lra.
Qed.

(** [Math.pow(2, e)] is a power of two, zero or [Infinity]. *)
Lemma Math_pow2_nonneg (e : Z) : num_le (Finite 0) (Math_pow2 e).
Proof. apply round64_nonneg, Qlt_le_weak, pow2_pos. Qed.

Lemma Math_pow2_overflow (e : Z) : (emax <= e)%Z -> Math_pow2 e = PosInfinity.
Proof. intros He. apply round64_overflow. now apply pow2_le. Qed.

Lemma Math_pow2_exact (e : Z) :
  (emin - (prec - 1) <= e < emax)%Z -> num_eq (Math_pow2 e) (Finite (pow2 e)).
Proof.
  intros [Hlo Hhi]. unfold Math_pow2. rewrite (round64_pos _ (pow2_pos e)).
  pose proof (round_pos_pow2 e Hlo) as Hfix.
  destruct (Qle_bool (pow2 emax) (round_pos (pow2 e))) eqn:Hov.
  - apply Qle_bool_iff in Hov. rewrite Hfix in Hov.
    assert (pow2 e < pow2 emax).
    { apply Qlt_le_trans with (pow2 (e + 1)); [|apply pow2_le; lia].
      rewrite pow2_add. change (pow2 1) with (2 # 1).
      pose proof (pow2_pos e). lra. }
    lra.
  - simpl. exact Hfix.
Qed.

(** With a [retryDelay] that is not negative, [baseDelay] is a binary64
    number that is not negative, or [Infinity]. *)
Lemma baseDelay_shape (retryDelay : Q) (attempts : Z) :
  0 < retryDelay ->
  baseDelay retryDelay attempts = PosInfinity
  \/ exists b, baseDelay retryDelay attempts = Finite b /\ 0 <= b
               /\ num_eq (round64 b) (Finite b).
Proof.
  intros Hd. unfold baseDelay.
  pose proof (Math_pow2_nonneg (attempts - 1)) as Hp.
  destruct (Math_pow2 (attempts - 1)) as [p| | |]; simpl in Hp; try tauto.
  - cbn [fmul].
    assert (H0 : 0 <= retryDelay * p) by (apply Qmult_le_0_compat; lra).
    pose proof (round64_nonneg _ H0) as Hr.
    destruct (round64 (retryDelay * p)) as [b| | |] eqn:Hb; simpl in Hr; try tauto.
    right. exists b. repeat split; auto. now apply (round64_idem _ _ H0).
  - left. cbn [fmul]. destruct (Qcompare_spec retryDelay 0); [lra|lra|reflexivity].
Qed.

(** The jittered delay lies between the base delay and the base delay
    times [1.5], both ends included; when the base delay is [Infinity], so
    are all three. *)
Lemma jitteredDelay_bounds (retryDelay : Q) (attempts : Z) (u : Q) :
  0 < retryDelay -> 0 <= u -> u < 1 ->
  num_le (baseDelay retryDelay attempts) (jitteredDelay retryDelay attempts u)
  /\ num_le (jitteredDelay retryDelay attempts u)
            (fmul (baseDelay retryDelay attempts) (Finite (3 # 2))).
Proof.
  intros Hd Hu0 Hu1.
  destruct (jitter_factor_bounds u Hu0 Hu1) as (y & Hy & Hy1 & Hy2).
  unfold jitteredDelay. rewrite Hy.
  destruct (baseDelay_shape retryDelay attempts Hd) as [HB|(b & HB & Hb0 & Hfix)];
    rewrite HB; cbn [fmul].
  - destruct (Qcompare_spec y 0); [lra|lra|]. simpl. auto.
  - split.
    + apply num_le_trans with (round64 b).
      * apply num_eq_le, num_eq_sym, Hfix.
      * apply round64_mono; [exact Hb0|nra].
    + apply round64_mono; nra.
Qed.

(** Nothing caps the delay: from attempt 1025 on, [Math.pow(2, attempts - 1)]
    is [Infinity], and so is the delay. *)
Lemma jitteredDelay_overflow (retryDelay : Q) (attempts : Z) (u : Q) :
  0 < retryDelay -> 0 <= u -> u < 1 -> (emax + 1 <= attempts)%Z ->
  jitteredDelay retryDelay attempts u = PosInfinity.
Proof.
  intros Hd Hu0 Hu1 Ha.
  destruct (jitter_factor_bounds u Hu0 Hu1) as (y & Hy & Hy1 & Hy2).
  unfold jitteredDelay, baseDelay. rewrite Hy, Math_pow2_overflow by lia.
  cbn [fmul]. destruct (Qcompare_spec retryDelay 0); [lra|lra|].
  cbn [fmul]. destruct (Qcompare_spec y 0); [lra|lra|reflexivity].
Qed.

(** [retryDelay = 0]: the base delay is zero while the power of two is
    finite, and [0 * Infinity], which is [NaN], from attempt 1025 on. *)
Lemma jitteredDelay_zero (retryDelay : Q) (attempts : Z) (u : Q) :
  retryDelay == 0 -> 0 <= u -> u < 1 ->
  ((attempts <= emax)%Z -> jitteredDelay retryDelay attempts u = Finite 0)
  /\ ((emax + 1 <= attempts)%Z -> jitteredDelay retryDelay attempts u = NaN).
Proof.
  intros Hd Hu0 Hu1.
  destruct (jitter_factor_bounds u Hu0 Hu1) as (y & Hy & Hy1 & Hy2).
  unfold jitteredDelay, baseDelay. rewrite Hy. split; intros Ha.
  - pose proof (Math_pow2_nonneg (attempts - 1)) as Hp.
    destruct (Math_pow2 (attempts - 1)) as [p| | |] eqn:Hpow; simpl in Hp; try tauto.
    + cbn [fmul]. rewrite (round64_zero (retryDelay * p)) by (rewrite Hd; ring).
      cbn [fmul]. apply round64_zero. ring.
    + exfalso. unfold Math_pow2 in Hpow.
      assert (Hle : num_le (round64 (pow2 (attempts - 1)))
                           (round64 (pow2 (emax - 1)))).
      { apply round64_mono; [apply Qlt_le_weak, pow2_pos|apply pow2_le; lia]. }
      rewrite Hpow in Hle. vm_compute in Hle. exact Hle.
  - rewrite Math_pow2_overflow by lia. cbn [fmul].
    destruct (Qcompare_spec retryDelay 0); [reflexivity|lra|lra].
Qed.


(** *** The sign of the delay *)

(** At or below [-2^-1074], nothing rounds to zero either. *)
Lemma round64_negative (q : Q) :
  q <= - min_positive -> num_le (round64 q) (Finite (- min_positive)).
Proof.
  intros Hq. pose proof (pow2_pos (-1074)) as Hp. unfold min_positive in *.
  rewrite round64_neg by lra.
  destruct (Qle_bool _ _); simpl; [exact I|].
  apply Qopp_le_compat.
  rewrite <- (round_pos_pow2 (-1074)) at 1 by (unfold emin, prec; lia).
  apply round_pos_mono; [apply pow2_pos|lra].
Qed.

(** For an attempt number from 1 on, [Math.pow(2, attempts - 1)] is at
    least 1. *)
Lemma Math_pow2_ge_1 (e : Z) : (0 <= e)%Z -> num_le (Finite 1) (Math_pow2 e).
Proof.
  intros He. apply num_le_trans with (round64 (pow2 0)).
  - vm_compute. discriminate.
  - apply round64_mono; [apply Qlt_le_weak, pow2_pos|now apply pow2_le].
Qed.

Lemma jitteredDelay_positive (retryDelay : Q) (attempts : Z) (u : Q) :
  (1 <= attempts)%Z -> 0 <= u -> u < 1 -> min_positive <= retryDelay ->
  num_lt (Finite 0) (jitteredDelay retryDelay attempts u).
Proof.
  intros Ha Hu0 Hu1 Hd.
  pose proof (pow2_pos (-1074)) as Hp. unfold min_positive in *.
  assert (Hd0 : 0 < retryDelay) by lra.
  apply num_lt_le_trans with (baseDelay retryDelay attempts);
    [|now apply jitteredDelay_bounds].
  unfold baseDelay.
  pose proof (Math_pow2_ge_1 (attempts - 1) ltac:(lia)) as H1.
  destruct (Math_pow2 (attempts - 1)) as [p| | |]; simpl in H1; try tauto.
  - cbn [fmul].
    apply num_lt_le_trans with (Finite (pow2 (emin - (prec - 1))));
      [cbn [num_lt]; apply pow2_pos|].
    apply round64_no_underflow.
    change (emin - (prec - 1))%Z with (-1074)%Z. nra.
  - cbn [fmul]. destruct (Qcompare_spec retryDelay 0); [lra|lra|exact I].
Qed.

Lemma jitteredDelay_negative (retryDelay : Q) (attempts : Z) (u : Q) :
  (1 <= attempts)%Z -> 0 <= u -> u < 1 -> retryDelay <= - min_positive ->
  num_lt (jitteredDelay retryDelay attempts u) (Finite 0).
Proof.
  intros Ha Hu0 Hu1 Hd.
  pose proof (pow2_pos (-1074)) as Hp.
  destruct (jitter_factor_bounds u Hu0 Hu1) as (y & Hy & Hy1 & Hy2).
  assert (Hneg : num_lt (Finite (- min_positive)) (Finite 0))
    by (unfold min_positive; cbn [num_lt]; lra).
  unfold jitteredDelay. rewrite Hy.
  assert (HB : num_le (baseDelay retryDelay attempts) (Finite (- min_positive))).
  { unfold baseDelay.
    pose proof (Math_pow2_ge_1 (attempts - 1) ltac:(lia)) as H1.
    destruct (Math_pow2 (attempts - 1)) as [p| | |]; simpl in H1; try tauto.
    - cbn [fmul]. apply round64_negative. unfold min_positive in *. nra.
    - cbn [fmul]. unfold min_positive in *.
      destruct (Qcompare_spec retryDelay 0); [lra|exact I|lra]. }
  destruct (baseDelay retryDelay attempts) as [b| | |]; simpl in HB; try tauto.
  - cbn [fmul]. apply num_le_lt_trans with (Finite (- min_positive)); [|exact Hneg].
    apply round64_negative. unfold min_positive in *. nra.
  - cbn [fmul]. destruct (Qcompare_spec y 0); [lra|lra|exact I].
Qed.

(** The rounding written out on [Q] and the kernel's binary64 arithmetic
    compute the same delays on the samples, and the same powers of two. *)
Lemma round64_agrees_with_binary64 :
  forallb Binary64.agree Binary64.samples = true
  /\ forallb Binary64.agree_pow2 Binary64.powers = true.
Proof. split; vm_compute; reflexivity. Qed.

End Rounding.

(* ================================================================== *)
(** * The claims *)

(** C3.  With an IntersectionObserver in the host, the loader is started
    once per gate: an intersection event whose first entry is not
    intersecting changes nothing; no sequence of events leads to a second
    call; and when the loading component has been mounted and only
    non-intersecting events came before, the first intersecting event makes
    the one call, whatever follows it. *)
Theorem gate_fires_exactly_once
  (v : Variant) (h : Host) (o : Options)
  (loader : nat -> Settlement) (random : nat -> Q) :
  hasIntersectionObserver h = true ->
  (forall ev w, nonIntersecting ev = true ->
      step v h o loader random ev w = w)
  /\ (forall evs, invocations (run v h o loader random evs init) <= 1)
  /\ (forall pre es post, forallb nonIntersecting pre = true ->
        invocations (run v h o loader random ([Setup; Mount] ++ pre) init) = 0
        /\ invocations (run v h o loader random
             ([Setup; Mount] ++ pre ++ [Intersection (true :: es)]) init) = 1
        /\ invocations (run v h o loader random
             ([Setup; Mount] ++ pre ++ Intersection (true :: es) :: post) init) = 1).
Proof.
  intros HasIO.
  assert (Hg : wiring v h = Gated) by now apply observer_wiring.
  assert (Hle : forall evs, invocations (run v h o loader random evs init) <= 1).
  { intros evs.
    assert (Hinv : gated_inv loader (run v h o loader random evs init)).
    { apply run_invariant; [intros; now apply gated_inv_step|apply gated_inv_init]. }
    apply Hinv. }
  split; [intros; now apply nonIntersecting_step|].
  split; [exact Hle|].
  intros pre es post Hpre.
  destruct (armed_after_mount v h o loader random HasIO)
    as (Hob & Hph & Hinv & _).
  set (w := run v h o loader random [Setup; Mount] init) in *.
  assert (Hquiet : run v h o loader random ([Setup; Mount] ++ pre) init = w).
  { rewrite run_app. now apply nonIntersecting_run. }
  assert (Hfire : invocations (run v h o loader random
            ([Setup; Mount] ++ pre ++ [Intersection (true :: es)]) init) = 1).
  { rewrite app_assoc, run_app, Hquiet. simpl. rewrite Hob. simpl. rewrite Hph.
    unfold loadComponent, resolve, thrown. simpl. rewrite Hinv.
    destruct (loader 0), v, (resolveComponent w), (request w); reflexivity. }
  split; [now rewrite Hquiet|]. split; [exact Hfire|].
  apply Nat.le_antisymm; [apply Hle|].
  replace ([Setup; Mount] ++ pre ++ Intersection (true :: es) :: post)
    with (([Setup; Mount] ++ pre ++ [Intersection (true :: es)]) ++ post).
  2:{ now rewrite <- !app_assoc. }
  rewrite run_app. rewrite <- Hfire at 1. apply invocations_run.
Qed.

Lemma gate_fires_exactly_once_witness :
  hasIntersectionObserver modernHost = true
  /\ invocations (run MainTs modernHost defaults (alwaysLoads 5) noJitter
       ([Setup; Mount] ++ [Intersection [false]; Intersection [false; true]]
        ++ Intersection [true]
           :: [Intersection [true]; Intersection [true; true]; TimerFires])
       init) = 1.
Proof.
  split; [reflexivity|].
  apply (gate_fires_exactly_once MainTs modernHost defaults (alwaysLoads 5)
           noJitter eq_refl).
  reflexivity.
Defined.

(** C8.  In every run, the effect right before a call of the loader by
    the gate is the [unobserve] of the root element: the release comes
    first, and nothing comes between the two.  The calls that have no
    release before them are those of a host without IntersectionObserver,
    where no observer is ever constructed and there is nothing to
    release. *)
Theorem release_precedes_loader_call
  (v : Variant) (h : Host) (o : Options)
  (loader : nat -> Settlement) (random : nat -> Q)
  (evs : list Event) (later earlier : list Effect) :
  let w := run v h o loader random evs init in
  log w = later ++ CallLoader :: earlier ->
  (exists rest, earlier = Unobserve :: rest)
  \/ (hasIntersectionObserver h = false /\ observers w = 0
      /\ ~ In NewObserver (log w)).
Proof.
  intros w Hlog.
  destruct (hasIntersectionObserver h) eqn:HasIO.
  - left. apply (releasedBeforeEachCall_split (log w)) with (later := later);
      [|exact Hlog].
    apply (run_invariant v h o loader random
             (fun w => releasedBeforeEachCall (log w) = true)).
    + intros ev w'. now apply released_step.
    + reflexivity.
  - right. split; [reflexivity|].
    assert (Hno : observers w = 0 /\ observing w = false
                  /\ ~ In NewObserver (log w)).
    { apply (run_invariant v h o loader random
               (fun w => observers w = 0 /\ observing w = false
                         /\ ~ In NewObserver (log w))).
      - intros ev w'. now apply no_observer_step.
      - simpl; auto. }
    tauto.
Qed.

Lemma release_precedes_loader_call_witness :
  log (run Part000 modernHost defaults (alwaysLoads 5) noJitter
         [Setup; Mount; Intersection [true]] init)
  = [Resolve 5] ++ CallLoader :: [Unobserve; Observe; NewObserver]
  /\ ((exists rest, [Unobserve; Observe; NewObserver] = Unobserve :: rest)
      \/ (hasIntersectionObserver modernHost = false
          /\ observers (run Part000 modernHost defaults (alwaysLoads 5) noJitter
                          [Setup; Mount; Intersection [true]] init) = 0
          /\ ~ In NewObserver
                 (log (run Part000 modernHost defaults (alwaysLoads 5) noJitter
                         [Setup; Mount; Intersection [true]] init)))).
Proof.
  split; [reflexivity|].
  apply (release_precedes_loader_call Part000 modernHost defaults
           (alwaysLoads 5) noJitter
           [Setup; Mount; Intersection [true]] [Resolve 5]
           [Unobserve; Observe; NewObserver]).
  reflexivity.
Defined.

(** C7, as worded, fails on main.ts: without IntersectionObserver the
    loader is called neither by [defineInVueComponent] nor when Vue
    instantiates the component, but by the [onMounted] hook of the loading
    component, which waits for Vue to mount it. *)
Lemma not_invoked_at_construction :
  defineInVueComponent MainTs legacyHost defaults = inr init
  /\ invocations init = 0
  /\ invocations (run MainTs legacyHost defaults (alwaysLoads 5) noJitter
                    [Setup] init) = 0
  /\ invocations (run MainTs legacyHost defaults (alwaysLoads 5) noJitter
                    [Setup; Mount] init) = 1
  /\ ~ invoked_at_construction MainTs.
Proof.
  repeat (split; [reflexivity|]).
  intros H.
  specialize (H legacyHost defaults (alwaysLoads 5) noJitter init
                eq_refl eq_refl).
  discriminate H.
Qed.

(** C7, amended.  In a host without IntersectionObserver no observer is
    ever constructed, whatever the host does, and no intersection event is
    waited for.  [defineInVueComponent] itself calls nothing.  The loader
    is called when Vue brings the component to life ([activation]): in
    part_000 at the instantiation, by the first [load()]; in main.ts at the
    mount of the loading component, by its [onMounted] hook, and not
    before.  At that event the call of the loader is the first thing the
    code does to the outside. *)
Theorem loads_at_once_without_observer
  (v : Variant) (h : Host) (o : Options)
  (loader : nat -> Settlement) (random : nat -> Q) :
  hasIntersectionObserver h = false ->
  (forall evs,
      let w := run v h o loader random evs init in
      observers w = 0 /\ observing w = false /\ ~ In NewObserver (log w))
  /\ (forall w, defineInVueComponent v h o = inr w -> invocations w = 0)
  /\ forallb (fun ev => match ev with Intersection _ => false | _ => true end)
       (activation v) = true
  /\ invocations (run v h o loader random (removelast (activation v)) init) = 0
  /\ invocations (run v h o loader random (activation v) init) = 1
  /\ exists later,
       log (run v h o loader random (activation v) init) = later ++ [CallLoader].
Proof.
  intros NoIO. split; [|split].
  - intros evs.
    apply (run_invariant v h o loader random
             (fun w => observers w = 0 /\ observing w = false
                       /\ ~ In NewObserver (log w))).
    + intros ev w. now apply no_observer_step.
    + simpl; auto.
  - intros w Hw. destruct v; simpl in Hw.
    + now injection Hw as <-.
    + destruct (isCompatibleVueVersion (version h)); simpl in Hw;
        [now injection Hw as <-|discriminate Hw].
  - destruct v; simpl.
    + (* main.ts: the onMounted hook calls loadComponent *)
      unfold onMounted, load, wiring. rewrite NoIO. simpl.
      unfold loadComponent, resolve, thrown. simpl.
      destruct (loader 0); simpl; repeat split; auto.
      * now exists [Resolve c].
      * now exists [Uncaught].
    + (* part_000: Vue calls the loader it was given *)
      unfold load, wiring. rewrite NoIO. simpl.
      destruct (loader 0); simpl; repeat split; auto.
      * now exists [].
      * unfold runOnError, onError; simpl.
        destruct (1 >? maxRetries o)%Z; reflexivity.
      * unfold runOnError, onError; simpl.
        destruct (1 >? maxRetries o)%Z; simpl;
          [eexists [_; _; _]|eexists [_; _]]; reflexivity.
Qed.

Lemma loads_at_once_without_observer_witness :
  hasIntersectionObserver legacyHost = false
  /\ invocations (run MainTs legacyHost defaults (alwaysLoads 5) noJitter
                    [Setup] init) = 0
  /\ invocations (run MainTs legacyHost defaults (alwaysLoads 5) noJitter
                    [Setup; Mount] init) = 1.
Proof.
  split; [reflexivity|].
  destruct (loads_at_once_without_observer MainTs legacyHost defaults
              (alwaysLoads 5) noJitter eq_refl) as (_ & _ & _ & H0 & H1 & _).
  split; [exact H0|exact H1].
Defined.

(** C10.  Where the loader handed to [defineAsyncComponent] is the promise
    wrapper, its promise never rejects, and it is fulfilled only with what
    a call of the user's loader produced.  So [onError] is never called
    (no warning, no [fail()], no timer), Vue's retry counter stays at 0,
    and when every call of the user's loader rejects the promise stays
    unsettled for ever.  [onError] is reached where the user's loader is
    passed as it is: part_000 without IntersectionObserver warns at the
    first failure. *)
Theorem gated_promise_has_no_rejection_path
  (v : Variant) (h : Host) (o : Options)
  (loader : nat -> Settlement) (random : nat -> Q) :
  wiring v h = Gated ->
  forall evs,
    let w := run v h o loader random evs init in
    (forall e, request w <> Rejected e)
    /\ (forall c, request w = Fulfilled c ->
          exists k, k < invocations w /\ loader k = Fulfils c)
    /\ (forall a, ~ In (Warn a) (log w))
    /\ ~ In CallFail (log w)
    /\ (forall d, ~ In (SetTimeout d) (log w))
    /\ timers w = [] /\ retries w = 0
    /\ ((forall k, exists e, loader k = Rejects e) ->
          request w = NotCreated \/ request w = Pending)
    /\ In (Warn 1)
         (log (run Part000 legacyHost defaults (alwaysFails 9) noJitter
                 [Setup] init)).
Proof.
  intros Hg evs w.
  assert (Hinv : gated_inv loader w).
  { apply run_invariant; [intros; now apply gated_inv_step|apply gated_inv_init]. }
  destruct Hinv as (Htm & Hrt & Hdr & Hlg & Hle & Hob & Hph & Hrq).
  destruct (noRetryEffect_In _ Hlg) as (Hwarn & Hfail & Htimer).
  repeat split; auto.
  - intros e He. now rewrite He in Hrq.
  - intros c Hc. rewrite Hc in Hrq. destruct Hrq as [Hp Hone].
    exists 0. split; [lia|exact Hp].
  - intros Hall. destruct (request w) as [| |c|e]; auto.
    + destruct Hrq as [Hp _]. destruct (Hall 0) as [e He]. congruence.
    + contradiction.
  - simpl. auto.
Qed.

Lemma gated_promise_has_no_rejection_path_witness :
  wiring MainTs legacyHost = Gated
  /\ request (run MainTs legacyHost defaults (alwaysFails 9) noJitter
                [Setup; Mount; TimerFires] init) <> Rejected 9.
Proof.
  split; [reflexivity|].
  apply (gated_promise_has_no_rejection_path MainTs legacyHost defaults
           (alwaysFails 9) noJitter eq_refl [Setup; Mount; TimerFires]).
Defined.

(** C4, as worded, fails: neither copy registers an unmount hook, so the
    observer still holds the root element after the loading component is
    gone. *)
Lemma teardown_does_not_release :
  observing (run MainTs modernHost defaults (alwaysLoads 5) noJitter
               [Setup; Mount; Unmount] init) = true
  /\ log (run MainTs modernHost defaults (alwaysLoads 5) noJitter
            [Setup; Mount; Unmount] init) = [Observe; NewObserver]
  /\ ~ teardown_releases MainTs modernHost defaults (alwaysLoads 5) noJitter.
Proof.
  split; [reflexivity|]. split; [reflexivity|].
  intros H. destruct (H [] eq_refl) as [Hreleased _].
  discriminate Hreleased.
Qed.

(** C4, amended.  With an IntersectionObserver in the host, if the loading
    component is unmounted before any intersecting event, the teardown
    calls neither [unobserve] nor the loader, and the observer goes on
    holding the element: nothing is released.  That gate starts no load
    afterwards all the same: as long as Vue does not mount the loading
    component again, whatever else the host does, no call of the loader
    follows, for [elRef.value] is [null] by then and a late intersecting
    report throws at [unobserve], before [loadComponent].  (The loader and
    the pending request belong to the component, not to the placeholder: a
    placeholder that Vue mounts later has a gate of its own.) *)
Theorem teardown_leaves_observer_and_never_loads
  (v : Variant) (h : Host) (o : Options)
  (loader : nat -> Settlement) (random : nat -> Q) :
  hasIntersectionObserver h = true ->
  forall pre, forallb nonIntersecting pre = true ->
    let w := run v h o loader random ([Setup; Mount] ++ pre ++ [Unmount]) init in
    observing w = true
    /\ ~ In Unobserve (log w)
    /\ invocations w = 0
    /\ forall post, forallb notMount post = true ->
         invocations (run v h o loader random post w) = 0
         /\ observing (run v h o loader random post w) = true
         /\ ~ In Unobserve (log (run v h o loader random post w)).
Proof.
  intros HasIO pre Hpre w.
  assert (Hw : torn_down w).
  { unfold w. rewrite app_assoc, run_app.
    replace (run v h o loader random ([Setup; Mount] ++ pre) init)
      with (run v h o loader random [Setup; Mount] init).
    2:{ rewrite (run_app _ _ _ _ _ [Setup; Mount]).
        symmetry. now apply nonIntersecting_run. }
    destruct (armed_after_mount v h o loader random HasIO)
      as (Hob & Hph & Hinv & Htm & Hlg).
    set (w0 := run v h o loader random [Setup; Mount] init) in *.
    simpl. rewrite Hph. unfold torn_down. simpl. auto. }
  assert (Hpost : forall post, torn_down (run v h o loader random post w)).
  { intros post. apply run_invariant; [|exact Hw].
    intros ev w'. now apply torn_down_step. }
  destruct Hw as (Hph & Hob & Hinv & Htm & Hlg).
  repeat split; auto; intros; apply Hpost.
Qed.

Lemma teardown_leaves_observer_and_never_loads_witness :
  hasIntersectionObserver modernHost = true
  /\ forallb nonIntersecting [Intersection [false]] = true
  /\ forallb notMount [Intersection [true]; Setup; Intersection [true]] = true
  /\ invocations
       (run MainTs modernHost defaults (alwaysLoads 5) noJitter
          [Intersection [true]; Setup; Intersection [true]]
          (run MainTs modernHost defaults (alwaysLoads 5) noJitter
             ([Setup; Mount] ++ [Intersection [false]] ++ [Unmount]) init)) = 0.
Proof.
  split; [reflexivity|]. split; [reflexivity|]. split; [reflexivity|].
  apply (teardown_leaves_observer_and_never_loads MainTs modernHost defaults
           (alwaysLoads 5) noJitter eq_refl [Intersection [false]] eq_refl).
  reflexivity.
Defined.

(** ** The retry policy against the wiring of main.ts *)

(** [fail()] exactly when [attempts] exceeds [maxRetries], a timer
    otherwise. *)
Lemma onError_decides (maxRetries : Z) (retryDelay : Q) (attempts : Z) (u : Q) :
  ((attempts <= maxRetries)%Z ->
     onError maxRetries retryDelay attempts u
     = RetryAfter (jitteredDelay retryDelay attempts u))
  /\ ((maxRetries < attempts)%Z ->
        onError maxRetries retryDelay attempts u = GiveUp).
Proof.
  unfold onError.
  destruct (Z.gtb_spec attempts maxRetries); split; intros; auto; lia.
Qed.

(** main.ts, whatever the host and the options: the outcome of the first
    call of the loader is the only one there ever is. *)
Lemma main_ts_first_call_decides
  (h : Host) (o : Options) (loader : nat -> Settlement) (random : nat -> Q)
  (evs : list Event) :
  let w := run MainTs h o loader random evs init in
  invocations w <= 1
  /\ (forall e, request w <> Rejected e)
  /\ ~ In CallFail (log w)
  /\ (forall a, ~ In (Warn a) (log w))
  /\ timers w = []
  /\ (forall e, loader 0 = Rejects e -> forall c, request w <> Fulfilled c).
Proof.
  intros w.
  assert (Hinv : gated_inv loader w).
  { apply run_invariant; [intros; now apply gated_inv_step|apply gated_inv_init]. }
  destruct Hinv as (Htm & Hrt & Hdr & Hlg & Hle & Hob & Hph & Hrq).
  destruct (noRetryEffect_In _ Hlg) as (Hwarn & Hfail & Htimer).
  repeat split; auto.
  - intros e He. now rewrite He in Hrq.
  - intros e He c Hc. rewrite Hc in Hrq. destruct Hrq as [Hp _]. congruence.
Qed.

(** C1, on main.ts.  A loader that fails every time is called once, not
    [maxRetries + 1] times: its rejection leaves [loadComponent] uncaught,
    [onError] is never called, no retry is scheduled and [fail()] is never
    reached.  With the default three retries, after the gate has fired and
    however many timers the host runs, there has been one call and the
    request is still pending. *)
Theorem main_ts_failing_loader_is_called_once :
  (forall h o random e evs,
      let w := run MainTs h o (alwaysFails e) random evs init in
      invocations w <= 1
      /\ (forall e', request w <> Rejected e')
      /\ ~ In CallFail (log w)
      /\ (forall a, ~ In (Warn a) (log w))
      /\ timers w = [])
  /\ (let w := run MainTs modernHost defaults (alwaysFails 9) noJitter
                 [Setup; Mount; Intersection [true];
                  TimerFires; TimerFires; TimerFires; TimerFires] init in
      maxRetries defaults = 3%Z /\ invocations w = 1 /\ request w = Pending
      /\ log w = [Uncaught; CallLoader; Unobserve; Observe; NewObserver]).
Proof.
  split.
  - intros h o random e evs w.
    destruct (main_ts_first_call_decides h o (alwaysFails e) random evs)
      as (H1 & H2 & H3 & H4 & H5 & _).
    repeat split; auto.
  - repeat split.
Qed.

(** The same loader on the direct wiring of part_000 (no
    IntersectionObserver): [n + 1] calls, then the request is rejected. *)
Lemma part000_fallback_failing_loader (o : Options) (random : nat -> Q)
  (e : Error) (n : nat) :
  maxRetries o = Z.of_nat n ->
  let w := run Part000 legacyHost o (alwaysFails e) random
             (Setup :: repeat TimerFires n) init in
  invocations w = S n /\ request w = Rejected e /\ timers w = [].
Proof.
  intros Hn.
  destruct (direct_exhausted Part000 legacyHost o (alwaysFails e) random
              eq_refl e n eq_refl Hn) as (Hinv & _ & Hrq & Htm & _).
  auto.
Qed.

(** C5, on main.ts.  With [maxRetries = 0] and a loader whose first call
    fails, there is one call and no timer, but no terminal failure either:
    [fail()] is never called and the request is neither rejected nor
    fulfilled, whatever the host does after the gate has fired. *)
Theorem main_ts_no_retries_no_terminal_failure :
  forall post,
    let w := run MainTs modernHost noRetries (failsOnce 9 5) noJitter
               ([Setup; Mount; Intersection [true]] ++ post) init in
    maxRetries noRetries = 0%Z
    /\ invocations w = 1
    /\ timers w = []
    /\ ~ In CallFail (log w)
    /\ (forall e, request w <> Rejected e)
    /\ (forall c, request w <> Fulfilled c).
Proof.
  intros post w.
  destruct (main_ts_first_call_decides modernHost noRetries (failsOnce 9 5)
              noJitter ([Setup; Mount; Intersection [true]] ++ post))
    as (Hle & Hrej & Hfail & _ & Htm & Hful).
  fold w in Hle, Hrej, Hfail, Htm, Hful.
  repeat split; auto.
  - apply Nat.le_antisymm; [exact Hle|].
    unfold w. rewrite run_app.
    apply (invocations_run MainTs modernHost noRetries (failsOnce 9 5) noJitter
             post (run MainTs modernHost noRetries (failsOnce 9 5) noJitter
                     [Setup; Mount; Intersection [true]] init)).
  - now apply (Hful 9).
Qed.

(** C6, on main.ts.  A loader that fails once and would succeed at the
    second call is never called a second time, and the request is never
    fulfilled; a loader that succeeds at its first call is called once and
    its component is delivered. *)
Theorem main_ts_failure_then_success_never_loads :
  (forall h o random e c evs,
      let w := run MainTs h o (failsOnce e c) random evs init in
      invocations w <= 1 /\ (forall c', request w <> Fulfilled c')
      /\ timers w = [])
  /\ (forall post,
        let w := run MainTs modernHost defaults (alwaysLoads 5) noJitter
                   ([Setup; Mount; Intersection [true]] ++ post) init in
        invocations w = 1 /\ timers w = []).
Proof.
  split.
  - intros h o random e c evs w.
    destruct (main_ts_first_call_decides h o (failsOnce e c) random evs)
      as (Hle & _ & _ & _ & Htm & Hful).
    repeat split; auto. now apply (Hful e).
  - intros post w.
    destruct (main_ts_first_call_decides modernHost defaults (alwaysLoads 5)
                noJitter ([Setup; Mount; Intersection [true]] ++ post))
      as (Hle & _ & _ & _ & Htm & _).
    fold w in Hle, Htm. split; auto.
    apply Nat.le_antisymm; [exact Hle|].
    unfold w. rewrite run_app.
    apply (invocations_run MainTs modernHost defaults (alwaysLoads 5) noJitter
             post (run MainTs modernHost defaults (alwaysLoads 5) noJitter
                     [Setup; Mount; Intersection [true]] init)).
Qed.

(** The second call that C6 asks for does happen on the direct wiring of
    part_000: one failure, one timer, one success. *)
Lemma part000_fallback_failure_then_success (random : nat -> Q) :
  let w := run Part000 legacyHost defaults (failsOnce 9 5) random
             [Setup; TimerFires] init in
  invocations w = 2 /\ request w = Fulfilled 5 /\ timers w = []
  /\ forall evs, run Part000 legacyHost defaults (failsOnce 9 5) random evs w = w.
Proof.
  destruct (direct_fail_then_succeed Part000 legacyHost defaults (failsOnce 9 5)
              random eq_refl 1 5) as (H1 & H2 & H3 & _ & H5).
  - intros k Hk. exists 9. assert (k = 0) as -> by lia. reflexivity.
  - reflexivity.
  - unfold maxRetries, defaults; simpl. lia.
  - auto.
Qed.

(** ** Construction *)

(** The version check on a few versions of Vue: 3.2 and later pass; 3.1,
    Vue 2 and a version with no minor field do not. *)
Lemma isCompatibleVueVersion_samples :
  map isCompatibleVueVersion
    ["3.2.0"; "3.4.21"; "3.10.1"; "3.1.5"; "2.7.16"; "4.0.0"; "3"]%string
  = [true; true; true; false; false; false; false].
Proof. reflexivity. Qed.

(** C9, as worded, fails: main.ts accepts a negative [maxRetries], and it
    accepts a Vue that part_000 would refuse; part_000 accepts a negative
    [maxRetries] too. *)
Lemma bad_configuration_is_accepted :
  defineInVueComponent MainTs (mkHost true "2.7.16")
    (mkOptions (Some (-1)%Z) None None) = inr init
  /\ defineInVueComponent Part000 modernHost
       (mkOptions (Some (-1)%Z) None None) = inr init
  /\ ~ rejects_bad_configuration MainTs
  /\ ~ rejects_bad_configuration Part000.
Proof.
  split; [reflexivity|]. split; [reflexivity|].
  split; intros H.
  - destruct (H (mkHost true "2.7.16") (mkOptions (Some (-1)%Z) None None))
      as [msg Hmsg]; [right; reflexivity|discriminate Hmsg].
  - destruct (H modernHost (mkOptions (Some (-1)%Z) None None))
      as [msg Hmsg]; [left; left; reflexivity|discriminate Hmsg].
Qed.

(** C9, amended.  Construction throws in one case only: in part_000, when
    the version of Vue is not 3.2 or later ([major === 3 && minor >= 2]);
    main.ts checks nothing.  The options are not looked at: they never
    change the outcome of the construction.  Construction itself calls the
    loader in no case.  A negative [maxRetries] is accepted, and then the
    first failure reported to [onError] is final. *)
Theorem construction_checks_only_the_vue_version
  (v : Variant) (h : Host) (o : Options) :
  ((exists msg, defineInVueComponent v h o = inl msg)
   <-> v = Part000 /\ isCompatibleVueVersion (version h) = false)
  /\ (forall o', defineInVueComponent v h o' = defineInVueComponent v h o)
  /\ (forall w, defineInVueComponent v h o = inr w ->
        w = init /\ invocations w = 0 /\ log w = [])
  /\ (forall d a u, (maxRetries o < 0)%Z -> (1 <= a)%Z ->
        onError (maxRetries o) d a u = GiveUp).
Proof.
  split; [split|split; [|split]].
  - intros [msg Hmsg]. destruct v; [discriminate|]. simpl in Hmsg.
    destruct (isCompatibleVueVersion (version h)); [discriminate|auto].
  - intros [-> Hv]. simpl. rewrite Hv. simpl. eauto.
  - intros o'. now destruct v.
  - intros w Hw.
    assert (w = init) as ->; [|now repeat split].
    destruct v; simpl in Hw; [congruence|].
    destruct (isCompatibleVueVersion (version h)); simpl in Hw; congruence.
  - intros d a u Hneg Ha. apply onError_decides. lia.
Qed.

(** ** The delay *)

(** The delay a timer was set with. *)
Lemma RetryAfter_inj (x y : number) : RetryAfter x = RetryAfter y -> y = x.
Proof. intros H. now injection H. Qed.

(** C2, as worded, fails at the upper end: with the largest draw below 1,
    [1 + u * 0.5] is [1.5 - 2^-54], which binary64 rounds to [1.5], and the
    delay after the first failure is [1500] for a [retryDelay] of [1000]:
    not below [1000 * 1.5]. *)
Lemma half_open_delay_claim_fails :
  num_eq (jitteredDelay 1000 1 below_one) (Finite 1500)
  /\ (1000 * pow2 (1 - 1) * (3 # 2) == 1500)%Q
  /\ ~ half_open_delay_claim.
Proof.
  split; [vm_compute; reflexivity|]. split; [vm_compute; reflexivity|].
  assert (Hk : (1 <= 1 <= 3)%Z) by lia.
  assert (Hd : (0 < 1000)%Q) by reflexivity.
  assert (Hu0 : (0 <= below_one)%Q) by (vm_compute; discriminate).
  assert (Hu1 : (below_one < 1)%Q) by (vm_compute; reflexivity).
  intros H.
  destruct (H 3%Z 1000%Q 1%Z below_one Hk Hd Hu0 Hu1) as (d & Hset & _ & Hlt).
  rewrite (proj1 (onError_decides 3 1000 1 below_one) (proj2 Hk)) in Hset.
  apply RetryAfter_inj in Hset. rewrite Hset in Hlt.
  vm_compute in Hlt. discriminate Hlt.
Qed.

(** C2, amended.  After failure [k], [1 <= k <= maxRetries], with a
    positive [retryDelay] and a draw [u] in [[0,1)], [onError] sets a timer
    whose delay is the binary64 value of
    [retryDelay * 2^(k-1) * (1 + u * 0.5)].  The delay lies in the closed
    interval from [baseDelay] to [baseDelay * 1.5], where [baseDelay] is
    the binary64 value of [retryDelay * 2^(k-1)]; without rounding, the
    same expression lies in the half-open interval of the specification.
    Nothing caps the delay: [Math.pow(2, k - 1)] is the exact power of
    two up to [k = 1024] and [Infinity] from [k = 1025] on, and then the
    delay is [Infinity] too.  The draw is a fresh one for each timer: on
    the direct wiring of part_000, where [onError] is reached, the timer
    set after failure [j + 1] is computed from call [j] of [Math.random],
    and in every run the draws are as many as the timers set. *)
Theorem delay_within_closed_interval
  (maxRetries : Z) (retryDelay : Q) (k : Z) (u : Q) :
  (1 <= k <= maxRetries)%Z ->
  (0 < retryDelay)%Q -> (0 <= u)%Q -> (u < 1)%Q ->
  onError maxRetries retryDelay k u = RetryAfter (jitteredDelay retryDelay k u)
  /\ num_le (baseDelay retryDelay k) (jitteredDelay retryDelay k u)
  /\ num_le (jitteredDelay retryDelay k u)
            (fmul (baseDelay retryDelay k) (Finite (3 # 2)))
  /\ (retryDelay * pow2 (k - 1) <= exactDelay retryDelay k u)%Q
  /\ (exactDelay retryDelay k u < retryDelay * pow2 (k - 1) * (3 # 2))%Q
  /\ ((k <= 1024)%Z -> num_eq (Math_pow2 (k - 1)) (Finite (pow2 (k - 1))))
  /\ ((1025 <= k)%Z -> jitteredDelay retryDelay k u = PosInfinity)
  /\ (forall h o loader random j,
        hasIntersectionObserver h = false ->
        (forall i, i <= j -> exists e, loader i = Rejects e) ->
        (Z.of_nat j < InVue.maxRetries o)%Z ->
        let w := run Part000 h o loader random
                   (Setup :: repeat TimerFires j) init in
        timers w
        = [jitteredDelay (InVue.retryDelay o) (Z.of_nat j + 1) (random j)]
        /\ draws w = S j)
  /\ (forall v h o loader random evs,
        let w := run v h o loader random evs init in
        draws w = timersSet (log w)).
Proof.
  intros Hk Hd Hu0 Hu1.
  destruct (jitteredDelay_bounds retryDelay k u Hd Hu0 Hu1) as [Hlo Hhi].
  assert (HB : (0 < retryDelay * pow2 (k - 1))%Q).
  { apply Qmult_lt_0_compat; [exact Hd|apply pow2_pos]. }
  split; [apply onError_decides; lia|].
  split; [exact Hlo|]. split; [exact Hhi|].
  split; [unfold exactDelay; nra|]. split; [unfold exactDelay; nra|].
  split; [intros Hsmall; apply Math_pow2_exact; unfold emin, emax, prec; lia|].
  split; [intros Hbig; apply jitteredDelay_overflow; auto; unfold emax; lia|].
  split.
  - intros h o loader random j NoIO Hfail Hn.
    assert (Hdirect : wiring Part000 h = Direct)
      by (unfold wiring; now rewrite NoIO).
    destruct (direct_failing_prefix Part000 h o loader random Hdirect j Hfail Hn)
      as (_ & _ & _ & Htm & Hdr & _).
    cbv zeta. rewrite Htm, Hdr. split; [|reflexivity].
    now replace (Z.of_nat (S j)) with (Z.of_nat j + 1)%Z by lia.
  - intros v h o loader random evs.
    apply (run_invariant v h o loader random
             (fun w => draws w = timersSet (log w))).
    + intros ev w. apply draws_step.
    + reflexivity.
Qed.

Lemma delay_within_closed_interval_witness :
  (1 <= 2 <= 3)%Z /\ (0 < 1000)%Q /\ (0 <= 1 # 4)%Q /\ (1 # 4 < 1)%Q
  /\ onError 3 1000 2 (1 # 4) = RetryAfter (jitteredDelay 1000 2 (1 # 4))
  /\ num_le (baseDelay 1000 2) (jitteredDelay 1000 2 (1 # 4))
  /\ num_le (jitteredDelay 1000 2 (1 # 4))
            (fmul (baseDelay 1000 2) (Finite (3 # 2))).
Proof.
  assert (Hk : (1 <= 2 <= 3)%Z) by lia.
  assert (Hd : (0 < 1000)%Q) by reflexivity.
  assert (Hu0 : (0 <= 1 # 4)%Q) by discriminate.
  assert (Hu1 : (1 # 4 < 1)%Q) by reflexivity.
  split; [exact Hk|]. split; [exact Hd|]. split; [exact Hu0|].
  split; [exact Hu1|].
  destruct (delay_within_closed_interval 3 1000 2 (1 # 4) Hk Hd Hu0 Hu1)
    as (H1 & H2 & H3 & _).
  split; [exact H1|]. split; [exact H2|exact H3].
Defined.

(* ================================================================== *)
(** * Further properties of the code *)

(** ** The version check on decimal versions *)

Section VersionNumbers.

Local Open Scope string_scope.

(** One digit read by [Number]. *)
Lemma digits_step (acc k : N) (c : ascii) (rest : string) :
  digit_of c = Some k ->
  digits acc (String c rest) = digits (10 * acc + k) rest.
Proof.
  intros H. change (digits acc (String c rest))
    with (match digit_of c with
          | Some d => digits (10 * acc + d) rest
          | None => JsNaN
          end).
  now rewrite H.
Qed.

(** [Number] reads back the decimal digits of a number. *)
Lemma digits_of_uint_acc (d : Decimal.uint) (acc : positive) :
  digits (Npos acc) (DecimalString.NilEmpty.string_of_uint d)
  = JsNum (Npos (Pos.of_uint_acc d acc)).
Proof.
  revert acc. induction d; intros acc;
    [reflexivity
    |change (DecimalString.NilEmpty.string_of_uint (Decimal.D0 d))
       with (String "0" (DecimalString.NilEmpty.string_of_uint d));
     rewrite (digits_step _ 0) by reflexivity;
     replace (10 * N.pos acc + 0)%N with (N.pos (10 * acc)) by lia; apply IHd
    |..].
  all: match goal with
       | |- digits _ (DecimalString.NilEmpty.string_of_uint ?u) = _ =>
           let s := eval cbn [DecimalString.NilEmpty.string_of_uint] in
                      (DecimalString.NilEmpty.string_of_uint u) in
           change (DecimalString.NilEmpty.string_of_uint u) with s
       end.
  - rewrite (digits_step _ 1) by reflexivity.
    replace (10 * N.pos acc + 1)%N with (N.pos (1 + 10 * acc)) by lia. apply IHd.
  - rewrite (digits_step _ 2) by reflexivity.
    replace (10 * N.pos acc + 2)%N with (N.pos (2 + 10 * acc)) by lia. apply IHd.
  - rewrite (digits_step _ 3) by reflexivity.
    replace (10 * N.pos acc + 3)%N with (N.pos (3 + 10 * acc)) by lia. apply IHd.
  - rewrite (digits_step _ 4) by reflexivity.
    replace (10 * N.pos acc + 4)%N with (N.pos (4 + 10 * acc)) by lia. apply IHd.
  - rewrite (digits_step _ 5) by reflexivity.
    replace (10 * N.pos acc + 5)%N with (N.pos (5 + 10 * acc)) by lia. apply IHd.
  - rewrite (digits_step _ 6) by reflexivity.
    replace (10 * N.pos acc + 6)%N with (N.pos (6 + 10 * acc)) by lia. apply IHd.
  - rewrite (digits_step _ 7) by reflexivity.
    replace (10 * N.pos acc + 7)%N with (N.pos (7 + 10 * acc)) by lia. apply IHd.
  - rewrite (digits_step _ 8) by reflexivity.
    replace (10 * N.pos acc + 8)%N with (N.pos (8 + 10 * acc)) by lia. apply IHd.
  - rewrite (digits_step _ 9) by reflexivity.
    replace (10 * N.pos acc + 9)%N with (N.pos (9 + 10 * acc)) by lia. apply IHd.
Qed.

(** Leading zeros add nothing. *)
Lemma digits_of_uint (d : Decimal.uint) :
  digits 0 (DecimalString.NilEmpty.string_of_uint d) = JsNum (Pos.of_uint d).
Proof.
  induction d;
    [reflexivity
    |change (DecimalString.NilEmpty.string_of_uint (Decimal.D0 d))
       with (String "0" (DecimalString.NilEmpty.string_of_uint d));
     rewrite (digits_step _ 0) by reflexivity; exact IHd
    |..].
  all: match goal with
       | |- digits _ (DecimalString.NilEmpty.string_of_uint ?u) = _ =>
           let s := eval cbn [DecimalString.NilEmpty.string_of_uint] in
                      (DecimalString.NilEmpty.string_of_uint u) in
           change (DecimalString.NilEmpty.string_of_uint u) with s
       end.
  - rewrite (digits_step _ 1) by reflexivity. apply (digits_of_uint_acc d 1).
  - rewrite (digits_step _ 2) by reflexivity. apply (digits_of_uint_acc d 2).
  - rewrite (digits_step _ 3) by reflexivity. apply (digits_of_uint_acc d 3).
  - rewrite (digits_step _ 4) by reflexivity. apply (digits_of_uint_acc d 4).
  - rewrite (digits_step _ 5) by reflexivity. apply (digits_of_uint_acc d 5).
  - rewrite (digits_step _ 6) by reflexivity. apply (digits_of_uint_acc d 6).
  - rewrite (digits_step _ 7) by reflexivity. apply (digits_of_uint_acc d 7).
  - rewrite (digits_step _ 8) by reflexivity. apply (digits_of_uint_acc d 8).
  - rewrite (digits_step _ 9) by reflexivity. apply (digits_of_uint_acc d 9).
Qed.

Lemma Number_decimal (n : N) : Number (decimal n) = JsNum n.
Proof.
  unfold Number, decimal. rewrite digits_of_uint.
  f_equal. apply DecimalN.Unsigned.of_to.
Qed.

(** [split] reads over the digits of a number. *)
Lemma append_snoc (a : string) (c : ascii) (b : string) :
  (a ++ String c EmptyString) ++ b = a ++ String c b.
Proof. induction a as [|x a IH]; simpl; [reflexivity|now rewrite IH]. Qed.

Lemma append_nil_r (a : string) : a ++ EmptyString = a.
Proof. induction a as [|x a IH]; simpl; [reflexivity|now rewrite IH]. Qed.

Lemma split_dot_digits (d : Decimal.uint) (cur rest : string) :
  split_dot cur (DecimalString.NilEmpty.string_of_uint d ++ rest)
  = split_dot (cur ++ DecimalString.NilEmpty.string_of_uint d) rest.
Proof.
  revert cur. induction d; intros cur;
    cbn [DecimalString.NilEmpty.string_of_uint append];
    [now rewrite append_nil_r
    |cbn [split_dot]; simpl Ascii.eqb; cbv iota; rewrite IHd, append_snoc;
     reflexivity..].
Qed.

Lemma split_decimal_dot (n : N) (rest : string) :
  split (decimal n ++ String "." rest) = decimal n :: split rest.
Proof.
  unfold split, decimal. rewrite split_dot_digits. reflexivity.
Qed.

Lemma split_decimal (n : N) : split (decimal n) = [decimal n].
Proof.
  unfold split, decimal.
  pose proof (split_dot_digits (N.to_uint n) EmptyString EmptyString) as H.
  rewrite append_nil_r in H. exact H.
Qed.

(** The version check compares numbers, not strings: a version written in
    decimal passes when its major field is 3 and its minor field is at
    least 2, whatever follows the minor field (3.10 passes, 3.2.0-beta
    passes, 2.7 and 4.0 do not); a version with no minor field never
    passes. *)
Theorem isCompatibleVueVersion_decimal (major minor : N) (rest : string) :
  isCompatibleVueVersion
    (decimal major ++ String "." (decimal minor ++ String "." rest))
  = ((major =? 3) && (2 <=? minor))%N
  /\ isCompatibleVueVersion (decimal major ++ String "." (decimal minor))
     = ((major =? 3) && (2 <=? minor))%N
  /\ isCompatibleVueVersion (decimal major) = false.
Proof.
  unfold isCompatibleVueVersion. repeat split.
  - rewrite !split_decimal_dot. cbn [map nth_error].
    now rewrite !Number_decimal.
  - rewrite split_decimal_dot, split_decimal. cbn [map nth_error].
    now rewrite !Number_decimal.
  - rewrite split_decimal. cbn [map nth_error ge2].
    apply andb_false_r.
Qed.

End VersionNumbers.

(** ** What [defineAsyncComponent] is given *)

Section ForwardedOptions.

Import Forwarding.
Local Open Scope string_scope.

(** Reading a property of [restOptions]. *)
Lemma get_restOptions (k : string) (options : Object) :
  get k (restOptions options)
  = if mem k destructured then Undefined else get k options.
Proof.
  unfold restOptions. induction options as [|[k' x] rest IH].
  - cbn [filter get]. now destruct (mem k destructured).
  - cbn [filter fst]. destruct (mem k' destructured) eqn:Hk'; cbn [negb get].
    + rewrite IH. destruct (String.eqb_spec k k') as [->|Hne]; [|reflexivity].
      now rewrite Hk'.
    + destruct (String.eqb_spec k k') as [->|Hne]; [now rewrite Hk'|exact IH].
Qed.

(** Whatever the caller's [options] hold: [onError] is the retry handler
    of this code (an [onError] of the caller is overridden), [timeout] is
    the caller's or 30000, [loader] is the promise wrapper or, in part_000
    without IntersectionObserver, the caller's loader; [maxRetries],
    [retryDelay] and [observerOptions] are not passed on; every property
    that the code neither destructures nor writes reaches
    [defineAsyncComponent] as the caller gave it.  main.ts replaces
    [loadingComponent] by its own wrapper around the caller's; part_000
    passes no [loadingComponent] at all. *)
Theorem options_forwarded (v : Variant) (h : Host) (options : Object) :
  let given := asyncComponentOptions v h options in
  get "onError" given
  = RetryHandler (withDefault (Num 3) (get "maxRetries" options))
                 (withDefault (Num 1000) (get "retryDelay" options))
  /\ get "timeout" given = withDefault (Num 30000) (get "timeout" options)
  /\ get "loader" given
     = match wiring v h with Gated => PromiseWrapper | Direct => UserLoader end
  /\ get "loadingComponent" given
     = match v with
       | MainTs => LoadingWrapper (get "loadingComponent" options)
       | Part000 => Undefined
       end
  /\ get "maxRetries" given = Undefined
  /\ get "retryDelay" given = Undefined
  /\ get "observerOptions" given = Undefined
  /\ forall k, mem k destructured = false -> mem k written = false ->
       get k given = get k options.
Proof.
  assert (Hrest : forall k, mem k written = false ->
            get k (asyncComponentOptions v h options)
            = get k (restOptions options)).
  { intros k Hk. unfold mem, written in Hk. cbn [existsb] in Hk.
    repeat (apply orb_false_iff in Hk; destruct Hk as [? Hk]).
    unfold asyncComponentOptions, set.
    destruct v, (hasIntersectionObserver h); cbn [negb get];
      repeat match goal with H : String.eqb k _ = false |- _ => rewrite H; clear H end;
      reflexivity. }
  cbv zeta. repeat split.
  - unfold asyncComponentOptions. now destruct v, (hasIntersectionObserver h).
  - unfold asyncComponentOptions. now destruct v, (hasIntersectionObserver h).
  - unfold asyncComponentOptions, wiring.
    now destruct v, (hasIntersectionObserver h).
  - destruct v; [unfold asyncComponentOptions; reflexivity|].
    transitivity (get "loadingComponent" (restOptions options));
      [|now rewrite get_restOptions].
    unfold asyncComponentOptions.
    now destruct (hasIntersectionObserver h).
  - rewrite Hrest by reflexivity. now rewrite get_restOptions.
  - rewrite Hrest by reflexivity. now rewrite get_restOptions.
  - rewrite Hrest by reflexivity. now rewrite get_restOptions.
  - intros k Hd Hw. rewrite Hrest by exact Hw.
    rewrite get_restOptions. now rewrite Hd.
Qed.

End ForwardedOptions.

(** ** The observer over its life *)

Section ObserverLife.

Variable v : Variant.
Variable h : Host.
Variable o : Options.
Variable loader : nat -> Settlement.
Variable random : nat -> Q.

Lemma observer_inv_load (w : World) :
  observer_inv w -> observer_inv (load v h o loader random w).
Proof.
  destruct w as [rq rt tm rc ph ob obs inv dr lg].
  unfold observer_inv, load, runOnError, onError; simpl.
  destruct (wiring v h); simpl; auto.
  destruct (loader inv); simpl; auto.
  destruct (_ >? _)%Z; simpl; auto.
Qed.

Lemma observer_inv_step (ev : Event) (w : World) :
  observer_inv w -> observer_inv (step v h o loader random ev w).
Proof.
  intros Hw. destruct ev as [| | |entries|]; simpl.
  - destruct (request w); auto; now apply observer_inv_load.
  - destruct w as [rq rt tm rc ph ob obs inv dr lg].
    unfold observer_inv in *; simpl in *.
    destruct Hw as (H1 & H2 & H3 & H4 & H5).
    destruct ph; [|world_facts..].
    destruct (H3 eq_refl) as [-> ->].
    destruct (mountable v h _); [|world_facts].
    unfold onMounted, startObserving, loadComponent, resolve, thrown; simpl.
    destruct v, (hasIntersectionObserver h), (loader inv), rc, rq;
      world_facts.
  - destruct w as [rq rt tm rc ph ob obs inv dr lg].
    unfold observer_inv in *; simpl in *.
    destruct Hw as (H1 & H2 & H3 & H4 & H5).
    destruct ph; world_facts.
  - destruct w as [rq rt tm rc ph ob obs inv dr lg].
    unfold observer_inv in *; simpl in *.
    destruct Hw as (H1 & H2 & H3 & H4 & H5).
    destruct ob; [|world_facts].
    destruct (H4 eq_refl) as [Hu ->].
    destruct entries as [|[|] es]; [world_facts| |world_facts].
    unfold observerCallback, loadComponent, resolve, thrown; simpl.
    destruct ph, v, (loader inv), rc, rq; world_facts.
  - destruct (timers w) as [|d rest]; auto.
    unfold retry. apply observer_inv_load.
    destruct w as [rq rt tm rc ph ob obs inv dr lg].
    unfold observer_inv in *; simpl in *. exact Hw.
Qed.

End ObserverLife.

(** One placeholder, one observer.  In a run in which Vue mounts the
    loading component once at most, on every host and in both copies: its
    [onMounted] hook constructs at most one observer, the element is
    released at most once, and an observer that has released it never
    observes again.  (A placeholder that Vue renders later gets an observer
    of its own from its own hook; such runs are left aside.) *)
Theorem observer_created_and_released_once
  (v : Variant) (h : Host) (o : Options)
  (loader : nat -> Settlement) (random : nat -> Q) (evs : list Event) :
  mounts evs <= 1 ->
  let w := run v h o loader random evs init in
  observers w <= 1
  /\ unobserves (log w) <= 1
  /\ (unobserves (log w) = 1 -> observing w = false)
  /\ (observing w = true -> observers w = 1 /\ unobserves (log w) = 0).
Proof.
  intros _ w.
  assert (Hw : observer_inv w).
  { apply run_invariant; [apply observer_inv_step|].
    unfold observer_inv; simpl.
    repeat split; intros; try discriminate; auto. }
  destruct Hw as (H1 & H2 & H3 & H4 & H5).
  repeat split; try lia.
  - intros Hu. destruct (observing w) eqn:Hob; [|reflexivity].
    destruct (H4 eq_refl). lia.
  - now apply H4.
  - now apply H4.
Qed.

Lemma observer_created_and_released_once_witness :
  mounts [Setup; Mount; Intersection [false]; Intersection [true]; Unmount] <= 1
  /\ observers
       (run MainTs modernHost defaults (alwaysLoads 5) noJitter
          [Setup; Mount; Intersection [false]; Intersection [true]; Unmount]
          init) <= 1.
Proof.
  assert (Hm : mounts [Setup; Mount; Intersection [false]; Intersection [true];
                       Unmount] <= 1) by apply le_n.
  split; [exact Hm|].
  apply (observer_created_and_released_once MainTs modernHost defaults
           (alwaysLoads 5) noJitter
           [Setup; Mount; Intersection [false]; Intersection [true]; Unmount]
           Hm).
Defined.

(** ** A load that succeeds *)

(** With an IntersectionObserver in the host and a loader whose first call
    succeeds: once the loading component is mounted, the first intersecting
    event delivers the component to [defineAsyncComponent], with one call
    of the loader and one call of [resolveComponent]; nothing the host does
    afterwards calls the loader again, resolves again, makes the observer
    observe again or changes the delivered component. *)
Theorem gate_delivers_component_once
  (v : Variant) (h : Host) (o : Options)
  (loader : nat -> Settlement) (random : nat -> Q) (c : Component) :
  hasIntersectionObserver h = true ->
  loader 0 = Fulfils c ->
  forall pre es post, forallb nonIntersecting pre = true ->
    let w := run v h o loader random
               ([Setup; Mount] ++ pre ++ Intersection (true :: es) :: post) init in
    request w = Fulfilled c
    /\ invocations w = 1
    /\ resolves (log w) = 1
    /\ observing w = false
    /\ timers w = [].
Proof.
  intros HasIO Hok pre es post Hpre.
  set (P := fun w : World =>
              request w = Fulfilled c /\ invocations w = 1
              /\ resolves (log w) = 1 /\ observing w = false
              /\ timers w = [] /\ phase w <> NotMounted).
  assert (Hfired : P (run v h o loader random
                        ([Setup; Mount] ++ pre ++ [Intersection (true :: es)]) init)).
  { rewrite app_assoc, run_app, (run_app _ _ _ _ _ [Setup; Mount]).
    rewrite (nonIntersecting_run v h o loader random pre _ Hpre).
    simpl. unfold load. rewrite (observer_wiring v h HasIO). simpl.
    assert (Hm : forall w, request w = Pending -> mountable v h w = true).
    { intros w Hw. unfold mountable. rewrite (observer_wiring v h HasIO), Hw.
      now destruct v. }
    rewrite Hm by reflexivity.
    unfold onMounted. rewrite HasIO.
    unfold P, loadComponent, resolve.
    destruct v; simpl; rewrite Hok; simpl; repeat split; discriminate. }
  assert (Hkeep : forall ev w, P w -> P (step v h o loader random ev w)).
  { intros ev [rq rt tm rc ph ob obs inv dr lg]. unfold P; simpl.
    intros (-> & -> & Hres & -> & -> & Hph).
    destruct ev as [| | |entries|]; simpl; auto 10.
    - destruct ph; simpl; auto 10. contradiction.
    - destruct ph; simpl; repeat split; auto; discriminate. }
  replace ([Setup; Mount] ++ pre ++ Intersection (true :: es) :: post)
    with (([Setup; Mount] ++ pre ++ [Intersection (true :: es)]) ++ post)
    by now rewrite <- !app_assoc.
  rewrite run_app.
  destruct (run_invariant v h o loader random P Hkeep post _ Hfired)
    as (H1 & H2 & H3 & H4 & H5 & _).
  cbv zeta. auto.
Qed.

Lemma gate_delivers_component_once_witness :
  hasIntersectionObserver modernHost = true
  /\ alwaysLoads 5 0 = Fulfils 5
  /\ forallb nonIntersecting [Intersection [false]] = true
  /\ request (run MainTs modernHost defaults (alwaysLoads 5) noJitter
                ([Setup; Mount] ++ [Intersection [false]]
                 ++ Intersection [true]
                    :: [Intersection [true]; Unmount; TimerFires; Setup]) init)
     = Fulfilled 5.
Proof.
  split; [reflexivity|]. split; [reflexivity|]. split; [reflexivity|].
  apply (gate_delivers_component_once MainTs modernHost defaults
           (alwaysLoads 5) noJitter 5 eq_refl eq_refl
           [Intersection [false]] [] [Intersection [true]; Unmount; TimerFires; Setup]
           eq_refl).
Defined.

(** ** The retry loop of part_000 without IntersectionObserver *)

Section RetryLoop.

Variable v : Variant.
Variable h : Host.
Variable o : Options.
Variable loader : nat -> Settlement.
Variable random : nat -> Q.
Hypothesis Hdirect : wiring v h = Direct.





End RetryLoop.

Lemma part000_direct (h : Host) :
  hasIntersectionObserver h = false -> wiring Part000 h = Direct.
Proof. intros H. unfold wiring. now rewrite H. Qed.

(** part_000 without IntersectionObserver, a loader that fails every time
    and [n] retries allowed: after [j] timers the loader has been called
    [min (j+1) (n+1)] times, and [onError] has been told of each failure
    once, with [attempts] counting 1, 2, ...  While retries are left one
    timer is pending; after [n] timers the request is rejected with the
    loader's error and no timer is left.  From then on nothing but a new
    instantiation changes the world; a new instantiation makes Vue call
    the loader once more, and the failure is reported with [attempts] at
    [n + 1] again and is final again: no retry is left for it. *)
Theorem fallback_retries_until_exhausted
  (h : Host) (o : Options) (random : nat -> Q) (e : Error) (n j : nat) :
  hasIntersectionObserver h = false ->
  maxRetries o = Z.of_nat n ->
  let w := run Part000 h o (alwaysFails e) random
             (Setup :: repeat TimerFires j) init in
  invocations w = Nat.min (S j) (S n)
  /\ attemptsSeen (log w) = countdown (invocations w)
  /\ (j < n -> request w = Pending /\ exists d, timers w = [d])
  /\ (n <= j ->
        request w = Rejected e /\ timers w = []
        /\ (forall evs, forallb notSetup evs = true ->
              run Part000 h o (alwaysFails e) random evs w = w)
        /\ let w' := run Part000 h o (alwaysFails e) random [Setup] w in
           invocations w' = S (S n) /\ request w' = Rejected e
           /\ timers w' = []
           /\ attemptsSeen (log w') = Z.of_nat (S n) :: countdown (S n)).
Proof.
  intros NoIO Hn w.
  pose proof (part000_direct h NoIO) as Hd.
  destruct (direct_always_failing Part000 h o (alwaysFails e) random Hd
              e n j eq_refl Hn) as (Hcalls & Hseen & Hlt & Hge).
  fold w in Hcalls, Hseen, Hlt, Hge.
  assert (Hinv : direct_inv (maxRetries o) w) by now apply direct_inv_run.
  split; [exact Hcalls|]. split; [exact Hseen|]. split; [exact Hlt|].
  intros Hjn. destruct (Hge Hjn) as (Hrq & Htm & Hrt).
  split; [exact Hrq|]. split; [exact Htm|]. split.
  - intros evs Hevs. apply direct_settled_run; auto. right. eauto.
  - destruct (direct_setup_after_failure Part000 h o (alwaysFails e) random Hd
                e w Hinv Hrq) as (Hc' & Hr' & Ht' & Hrq' & Hseen').
    change (run Part000 h o (alwaysFails e) random [Setup] w)
      with (step Part000 h o (alwaysFails e) random Setup w).
    cbv zeta.
    rewrite Hcalls, Nat.min_r in Hc', Hseen by lia.
    rewrite Hrt, Hseen in Hseen'.
    split; [exact Hc'|]. split; [exact Hrq'|]. split; [exact Ht'|].
    rewrite Hseen'. f_equal. lia.
Qed.

Lemma fallback_retries_until_exhausted_witness :
  hasIntersectionObserver legacyHost = false
  /\ maxRetries defaults = Z.of_nat 3
  /\ invocations (run Part000 legacyHost defaults (alwaysFails 9) noJitter
                    (Setup :: repeat TimerFires 5) init) = Nat.min 6 4.
Proof.
  split; [reflexivity|]. split; [reflexivity|].
  apply (fallback_retries_until_exhausted legacyHost defaults noJitter 9 3 5
           eq_refl eq_refl).
Defined.

(** part_000 without IntersectionObserver, a loader that fails [p] times
    and then succeeds, with at least [p] retries allowed: after [p] timers
    the loader has been called [p + 1] times, the request is fulfilled with
    the component of the last call, no timer is left and nothing the host
    does changes the world any more: no further call, no further timer. *)
Theorem fallback_succeeds_after_failures
  (h : Host) (o : Options) (loader : nat -> Settlement) (random : nat -> Q)
  (p : nat) (c : Component) :
  hasIntersectionObserver h = false ->
  (forall k, k < p -> exists e, loader k = Rejects e) ->
  loader p = Fulfils c ->
  (Z.of_nat p <= maxRetries o)%Z ->
  let w := run Part000 h o loader random (Setup :: repeat TimerFires p) init in
  invocations w = S p
  /\ request w = Fulfilled c
  /\ timers w = []
  /\ attemptsSeen (log w) = countdown p
  /\ forall evs, run Part000 h o loader random evs w = w.
Proof.
  intros NoIO Hfail Hok Hle w.
  pose proof (part000_direct h NoIO) as Hd.
  destruct (direct_fail_then_succeed Part000 h o loader random Hd p c
              Hfail Hok Hle) as (Hcalls & Hrq & Htm & Hlg & Hfinal).
  fold w in Hcalls, Hrq, Htm, Hlg, Hfinal.
  repeat split; auto.
Qed.

Lemma fallback_succeeds_after_failures_witness :
  hasIntersectionObserver legacyHost = false
  /\ (forall k, k < 1 -> exists e, failsOnce 9 5 k = Rejects e)
  /\ failsOnce 9 5 1 = Fulfils 5
  /\ (Z.of_nat 1 <= maxRetries defaults)%Z
  /\ request (run Part000 legacyHost defaults (failsOnce 9 5) noJitter
                (Setup :: repeat TimerFires 1) init) = Fulfilled 5.
Proof.
  assert (Hfail : forall k, k < 1 -> exists e, failsOnce 9 5 k = Rejects e).
  { intros k Hk. exists 9. destruct k; [reflexivity|lia]. }
  assert (Hle : (Z.of_nat 1 <= maxRetries defaults)%Z)
    by (unfold maxRetries, defaults; simpl; lia).
  split; [reflexivity|]. split; [exact Hfail|]. split; [reflexivity|].
  split; [exact Hle|].
  apply (fallback_succeeds_after_failures legacyHost defaults (failsOnce 9 5)
           noJitter 1 5 eq_refl Hfail eq_refl Hle).
Defined.





(** ** A [retryDelay] that is not positive *)

Section DelaySign.

Local Open Scope Q_scope.

(** Neither copy checks [retryDelay], and the delay has its sign.  For
    every attempt number from 1 on and every draw in [[0,1)]: a positive
    [retryDelay] (a binary64 number, so [2^-1074] at least) gives a delay
    above zero, [Infinity] included; a negative one gives a delay below
    zero, which is what [setTimeout] is handed; and with [retryDelay = 0]
    the delay is [0] up to attempt 1024, and [NaN] from attempt 1025 on,
    where [Math.pow(2, attempts - 1)] is [Infinity] and [0 * Infinity] is
    [NaN]. *)
Theorem delay_has_sign_of_retryDelay (retryDelay : Q) (attempts : Z) (u : Q) :
  (1 <= attempts)%Z -> 0 <= u -> u < 1 ->
  (min_positive <= retryDelay ->
     num_lt (Finite 0) (jitteredDelay retryDelay attempts u))
  /\ (retryDelay == 0 ->
        ((attempts <= 1024)%Z ->
           jitteredDelay retryDelay attempts u = Finite 0)
        /\ ((1025 <= attempts)%Z ->
              jitteredDelay retryDelay attempts u = NaN))
  /\ (retryDelay <= - min_positive ->
        num_lt (jitteredDelay retryDelay attempts u) (Finite 0)).
Proof.
  intros Ha Hu0 Hu1. split; [|split].
  - intros Hd. now apply jitteredDelay_positive.
  - intros Hd. now apply jitteredDelay_zero.
  - intros Hd. now apply jitteredDelay_negative.
Qed.

Lemma delay_has_sign_of_retryDelay_witness :
  (1 <= 1025)%Z /\ 0 <= 1 # 2 /\ 1 # 2 < 1
  /\ jitteredDelay 0 1025 (1 # 2) = NaN
  /\ num_lt (jitteredDelay (-1000) 1025 (1 # 2)) (Finite 0).
Proof.
  assert (Ha : (1 <= 1025)%Z) by lia.
  assert (Hu0 : 0 <= 1 # 2) by discriminate.
  assert (Hu1 : 1 # 2 < 1) by reflexivity.
  assert (Hd : -1000 <= - min_positive) by (vm_compute; discriminate).
  split; [exact Ha|]. split; [exact Hu0|]. split; [exact Hu1|]. split.
  - exact (proj2 (proj1 (proj2 (delay_has_sign_of_retryDelay
                                   0 1025 (1 # 2) Ha Hu0 Hu1))
                    (Qeq_refl 0)) (Z.le_refl 1025)).
  - exact (proj2 (proj2 (delay_has_sign_of_retryDelay
                           (-1000) 1025 (1 # 2) Ha Hu0 Hu1)) Hd).
Defined.

End DelaySign.

(** ** The two copies of the gate *)


Section TwoCopies.

Variable h : Host.
Variable o : Options.
Variable loader : nat -> Settlement.
Variable random : nat -> Q.
Hypothesis HasIO : hasIntersectionObserver h = true.


End TwoCopies.



(** ** Before the mount, and a mount without IntersectionObserver *)

(** Where the loader handed to Vue is the promise wrapper, the user's
    loader is reached through the [onMounted] hook of the loading component
    only: as long as the loading component is not mounted, whatever else
    the host does, the loader is not called, no observer exists and the
    request is not settled. *)
Theorem no_load_before_mount
  (v : Variant) (h : Host) (o : Options)
  (loader : nat -> Settlement) (random : nat -> Q) (evs : list Event) :
  wiring v h = Gated ->
  forallb notMount evs = true ->
  let w := run v h o loader random evs init in
  invocations w = 0 /\ observers w = 0 /\ observing w = false
  /\ (request w = NotCreated \/ request w = Pending)
  /\ log w = [].
Proof.
  intros Hg. unfold run.
  set (P := fun w : World =>
              invocations w = 0 /\ observers w = 0 /\ observing w = false
              /\ (request w = NotCreated \/ request w = Pending)
              /\ log w = [] /\ phase w = NotMounted /\ timers w = []).
  assert (Hall : forall evs w, P w -> forallb notMount evs = true ->
            P (fold_left (fun w ev => step v h o loader random ev w) evs w)).
  { clear evs. intros evs. induction evs as [|ev evs IH]; intros w Hw Hevs.
    - exact Hw.
    - simpl in Hevs. apply andb_true_iff in Hevs as [Hev Hevs].
      simpl. apply IH; [|exact Hevs].
      destruct w as [rq rt tm rc ph ob obs inv dr lg]. unfold P in *; simpl in *.
      destruct Hw as (-> & -> & -> & Hrq & -> & -> & ->).
      destruct ev; try discriminate; simpl.
      + unfold load. rewrite Hg. destruct rq; simpl; intuition.
      + intuition.
      + intuition.
      + intuition. }
  intros Hevs.
  destruct (Hall evs init) as (H1 & H2 & H3 & H4 & H5 & _); auto.
  unfold P; simpl. intuition.
Qed.

Lemma no_load_before_mount_witness :
  wiring Part000 modernHost = Gated
  /\ forallb notMount [Setup; Intersection [true]; TimerFires; Unmount] = true
  /\ invocations (run Part000 modernHost defaults (alwaysLoads 5) noJitter
                    [Setup; Intersection [true]; TimerFires; Unmount] init) = 0.
Proof.
  split; [reflexivity|]. split; [reflexivity|].
  apply (no_load_before_mount Part000 modernHost defaults (alwaysLoads 5)
           noJitter [Setup; Intersection [true]; TimerFires; Unmount]
           eq_refl eq_refl).
Defined.

(** main.ts without IntersectionObserver and a loader whose first call
    succeeds: the mount of the loading component delivers the component,
    with one call of the loader, and nothing the host does afterwards
    calls the loader again or changes the delivered component. *)
Theorem main_ts_delivers_at_mount_without_observer
  (h : Host) (o : Options) (loader : nat -> Settlement) (random : nat -> Q)
  (c : Component) (post : list Event) :
  hasIntersectionObserver h = false ->
  loader 0 = Fulfils c ->
  let w := run MainTs h o loader random ([Setup; Mount] ++ post) init in
  request w = Fulfilled c /\ invocations w = 1 /\ resolves (log w) = 1
  /\ observers w = 0 /\ timers w = [].
Proof.
  intros NoIO Hok.
  set (P := fun w : World =>
              request w = Fulfilled c /\ invocations w = 1
              /\ resolves (log w) = 1 /\ observers w = 0
              /\ timers w = [] /\ observing w = false
              /\ phase w <> NotMounted).
  assert (Hkeep : forall ev w, P w -> P (step MainTs h o loader random ev w)).
  { intros ev [rq rt tm rc ph ob obs inv dr lg]. unfold P; simpl.
    intros (-> & -> & Hres & -> & -> & -> & Hph).
    destruct ev as [| | |entries|]; simpl; auto 10.
    - destruct ph; simpl; auto 10. contradiction.
    - destruct ph; simpl; repeat split; auto; discriminate. }
  rewrite run_app.
  assert (Hmounted : P (run MainTs h o loader random [Setup; Mount] init)).
  { simpl. unfold onMounted, loadComponent, resolve. rewrite NoIO. simpl.
    rewrite Hok. unfold P; simpl. repeat split; discriminate. }
  destruct (run_invariant MainTs h o loader random P Hkeep post _ Hmounted)
    as (H1 & H2 & H3 & H4 & H5 & _).
  cbv zeta. auto.
Qed.

Lemma main_ts_delivers_at_mount_without_observer_witness :
  hasIntersectionObserver legacyHost = false
  /\ alwaysLoads 5 0 = Fulfils 5
  /\ request (run MainTs legacyHost defaults (alwaysLoads 5) noJitter
                ([Setup; Mount] ++ [Intersection [true]; Unmount; TimerFires])
                init) = Fulfilled 5.
Proof.
  split; [reflexivity|]. split; [reflexivity|].
  apply (main_ts_delivers_at_mount_without_observer legacyHost defaults
           (alwaysLoads 5) noJitter 5 [Intersection [true]; Unmount; TimerFires]
           eq_refl eq_refl).
Defined.
